(** * Marble Solitaire (French 7x7 board): a shallow embedding of msBoard and
    msSolver, with the properties of the board operations and of the DFS. *)

From Stdlib Require Import ZArith Lia Bool List Permutation Sorted.
From Stdlib Require String Ascii.
From stdpp Require Import base decidable gmap sets list.
Import ListNotations.
Open Scope Z_scope.

(* ------------------------------------------------------------------ *)
(** ** 64-bit words *)

(** A [uint64_t] is a [Z] in [0, 2^64); the operations below write out the
    wrap-around of the C++ operators. *)
Definition mask64 : Z := Z.ones 64.
Definition lnot64 (x : Z) : Z := Z.lxor x mask64.
Definition shl64 (x k : Z) : Z := Z.land (Z.shiftl x k) mask64.

(** [__builtin_popcountll]. *)
Definition popcount64 (x : Z) : Z :=
  fold_right (fun n acc => Z.b2z (Z.testbit x (Z.of_nat n)) + acc) 0 (seq 0 64).

(* ------------------------------------------------------------------ *)
(** ** msBoard.cpp: constants *)

Definition NUM_ROWS : Z := 7.
Definition NUM_COLS : Z := 7.
Definition MAX_ROW : Z := NUM_ROWS - 1.
Definition MAX_COL : Z := NUM_COLS - 1.
Definition MAX_BOARD_IDX : Z := 63.

(** [const bool PLAYABLE[7][7]]. *)
Definition PLAYABLE : list (list bool) :=
  [ [false;false;true;true;true;false;false];
    [false;true;true;true;true;true;false];
    [true;true;true;true;true;true;true];
    [true;true;true;true;true;true;true];
    [true;true;true;true;true;true;true];
    [false;true;true;true;true;true;false];
    [false;false;true;true;true;false;false] ].

(** [PLAYABLE[r][c]] as a C++ array access: [None] when either index lies
    outside its array (an out-of-bounds read). *)
Definition PLAYABLE_at (r c : Z) : option bool :=
  if (0 <=? r) && (0 <=? c) then
    match nth_error PLAYABLE (Z.to_nat r) with
    | Some row => nth_error row (Z.to_nat c)
    | None => None
    end
  else None.

(** [PLAYABLE[r][c]] for indices known to be in range. *)
Definition playable (r c : Z) : bool :=
  match PLAYABLE_at r c with Some b => b | None => false end.

Definition ROW_IDX (r : Z) : Z := MAX_BOARD_IDX - r * NUM_COLS.
Definition rowShift (r : Z) : Z := ROW_IDX r - (NUM_COLS - 1).

Definition DEFAULT_BOARD : Z := 0x18FBFFFFEF8E0000.
Definition FULL_BOARD : Z := 0x38FBFFFFEF8E0000.
Definition EMPTY_BOARD : Z := 0.
Definition WINNING_MARBLE_COUNT : Z := 1.

Definition COL_START_IDX : list Z := [2;1;0;0;0;1;2].
Definition COL_END_IDX : list Z := [4;5;6;6;6;5;4].

(* ------------------------------------------------------------------ *)
(** ** msBoard.cpp: anonymous-namespace helpers *)

Definition reverse7 (x : Z) : Z :=
  let rev := 0 in
  let rev := Z.lor rev (Z.shiftl (Z.land x 0x01) 6) in
  let rev := Z.lor rev (Z.shiftl (Z.land x 0x02) 4) in
  let rev := Z.lor rev (Z.shiftl (Z.land x 0x04) 2) in
  let rev := Z.lor rev (Z.land x 0x08) in
  let rev := Z.lor rev (Z.shiftr (Z.land x 0x10) 2) in
  let rev := Z.lor rev (Z.shiftr (Z.land x 0x20) 4) in
  let rev := Z.lor rev (Z.shiftr (Z.land x 0x40) 6) in
  rev.

(** [REVERSED] is the table [reverseAllRowCols()], whose entry [i] is
    [reverse7(i)] for [i < 128]; every index used is a 7-bit row or column. *)
Definition REVERSED (x : Z) : Z := reverse7 x.

Definition bitIndex (r c : Z) : Z := ROW_IDX r - c.

Definition getRow (b r : Z) : Z := Z.land (Z.shiftr b (rowShift r)) 0x7F.

Definition insertRow (b r rowBits : Z) : Z :=
  Z.lor (Z.land b (lnot64 (shl64 0x7F (rowShift r))))
        (shl64 rowBits (rowShift r)).

(** [getCol] without the [_pext_u64] path ([HAVE_PEXT] = 0); the PEXT path
    extracts the same seven bits in the same order. *)
Definition getCol (b c : Z) : Z :=
  Z.lor (Z.shiftl (Z.land (Z.shiftr b (ROW_IDX 0 - c)) 1) 6)
  (Z.lor (Z.shiftl (Z.land (Z.shiftr b (ROW_IDX 1 - c)) 1) 5)
  (Z.lor (Z.shiftl (Z.land (Z.shiftr b (ROW_IDX 2 - c)) 1) 4)
  (Z.lor (Z.shiftl (Z.land (Z.shiftr b (ROW_IDX 3 - c)) 1) 3)
  (Z.lor (Z.shiftl (Z.land (Z.shiftr b (ROW_IDX 4 - c)) 1) 2)
  (Z.lor (Z.shiftl (Z.land (Z.shiftr b (ROW_IDX 5 - c)) 1) 1)
         (Z.land (Z.shiftr b (ROW_IDX 6 - c)) 1)))))).

Definition getBit (b r c : Z) : Z := Z.land (Z.shiftr b (bitIndex r c)) 1.

(** [enum Transform]. *)
Inductive Transform :=
| DEGREE_0 | DEGREE_90 | DEGREE_180 | DEGREE_270
| FLIP_H | FLIP_V | FLIP_DIAG | FLIP_ANTI.

#[global] Instance Transform_eq_dec : EqDecision Transform.
Proof. solve_decision. Defined.

Definition all_transforms : list Transform :=
  [DEGREE_0; DEGREE_90; DEGREE_180; DEGREE_270;
   FLIP_H; FLIP_V; FLIP_DIAG; FLIP_ANTI].

(** [Transform(i)] for [i] in [0, 8). *)
Definition Transform_of_nat (i : nat) : Transform :=
  nth i all_transforms DEGREE_0.

(** The seven-iteration loop [for (int i = 0; i < NUM_ROWS; i++)] folding
    [out]. *)
Definition rows_loop (f : Z -> Z -> Z) (init : Z) : Z :=
  fold_left (fun out i => f out (Z.of_nat i)) (seq 0 7) init.

Definition transformBoard (b : Z) (t : Transform) : Z :=
  match t with
  | DEGREE_0 => b
  | DEGREE_90 =>
      rows_loop (fun out i => insertRow out (MAX_ROW - i) (getCol b i)) EMPTY_BOARD
  | DEGREE_180 =>
      rows_loop (fun out i => insertRow out (MAX_ROW - i) (REVERSED (getRow b i))) EMPTY_BOARD
  | DEGREE_270 =>
      rows_loop (fun out i => insertRow out i (REVERSED (getCol b i))) EMPTY_BOARD
  | FLIP_H =>
      rows_loop (fun out i => insertRow out i (REVERSED (getRow b i))) EMPTY_BOARD
  | FLIP_V =>
      rows_loop (fun out i => insertRow out (MAX_ROW - i) (getRow b i)) EMPTY_BOARD
  | FLIP_DIAG =>
      rows_loop (fun out i => insertRow out i (getCol b i)) EMPTY_BOARD
  | FLIP_ANTI =>
      rows_loop (fun out i => insertRow out (MAX_ROW - i) (REVERSED (getCol b i))) EMPTY_BOARD
  end.

Definition inverseTransform (t : Transform) : Transform :=
  match t with
  | DEGREE_0 => DEGREE_0
  | DEGREE_90 => DEGREE_270
  | DEGREE_180 => DEGREE_180
  | DEGREE_270 => DEGREE_90
  | FLIP_H => FLIP_H
  | FLIP_V => FLIP_V
  | FLIP_DIAG => FLIP_DIAG
  | FLIP_ANTI => FLIP_ANTI
  end.

(* ------------------------------------------------------------------ *)
(** ** Moves and the move table *)

(** [struct msBoard::Move]. *)
Record Move := mkMove { setBit : Z; clearBits : Z }.

#[global] Instance Move_eq_dec : EqDecision Move.
Proof. solve_decision. Defined.

(** The four direction tests of [setupAllMoves] for source [(r, c)]. *)
Definition moves_from (r c : Z) : list Move :=
  let src := bitIndex r c in
  (if (2 <=? r) && playable (r-1) c && playable (r-2) c then
     [mkMove (shl64 1 (bitIndex (r-2) c))
             (Z.lor (shl64 1 src) (shl64 1 (bitIndex (r-1) c)))] else []) ++
  (if (r <=? 4) && playable (r+1) c && playable (r+2) c then
     [mkMove (shl64 1 (bitIndex (r+2) c))
             (Z.lor (shl64 1 src) (shl64 1 (bitIndex (r+1) c)))] else []) ++
  (if (2 <=? c) && playable r (c-1) && playable r (c-2) then
     [mkMove (shl64 1 (bitIndex r (c-2)))
             (Z.lor (shl64 1 src) (shl64 1 (bitIndex r (c-1))))] else []) ++
  (if (c <=? 4) && playable r (c+1) && playable r (c+2) then
     [mkMove (shl64 1 (bitIndex r (c+2)))
             (Z.lor (shl64 1 src) (shl64 1 (bitIndex r (c+1))))] else []).

(** [for (int c = COL_START_IDX[r]; c <= COL_END_IDX[r]; c++)], skipping
    non-playable cells. *)
Definition row_moves (r : Z) : list Move :=
  let cs := nth (Z.to_nat r) COL_START_IDX 0 in
  let ce := nth (Z.to_nat r) COL_END_IDX 0 in
  flat_map (fun k => let c := cs + Z.of_nat k in
                     if playable r c then moves_from r c else [])
           (seq 0 (Z.to_nat (ce - cs + 1))).

Definition setupAllMoves : list Move :=
  flat_map (fun r => row_moves (Z.of_nat r)) (seq 0 7).

Definition ALL_MOVES : list Move := setupAllMoves.

(* ------------------------------------------------------------------ *)
(** ** msBoard public operations *)

(** [msBoard()]. *)
Definition msBoard_default : Z := DEFAULT_BOARD.

(** [msBoard(unsigned row, unsigned col)]. *)
Definition msBoard_rc (row col : N) : Z :=
  let r := Z.of_N row in
  let c := Z.of_N col in
  if (MAX_ROW <? r) || (MAX_COL <? c) || negb (playable r c) then DEFAULT_BOARD
  else Z.land FULL_BOARD (lnot64 (shl64 1 (bitIndex r c))).

Definition hasWon (b : Z) : bool := popcount64 b =? WINNING_MARBLE_COUNT.

(** The validity test of [validMoves] for one table entry. *)
Definition move_ok (b : Z) (m : Move) : bool :=
  (Z.land b (clearBits m) =? clearBits m) &&
  (Z.land (lnot64 b) (setBit m) =? setBit m).

(** [validMoves] appends the valid table entries, in table order. *)
Definition validMoves (b : Z) (moves : list Move) : list Move :=
  moves ++ filter (fun m => move_ok b m = true) ALL_MOVES.

Definition applyMove (b : Z) (m : Move) : Z :=
  Z.land (Z.lor b (setBit m)) (lnot64 (clearBits m)).

Definition undoMove (b : Z) (m : Move) : Z :=
  Z.lor (Z.land b (lnot64 (setBit m))) (clearBits m).

Definition boardToBits (board : Z) : Z :=
  let ret := EMPTY_BOARD in
  let b := board in
  let b := Z.shiftr b 17 in
  let ret := Z.lor ret (Z.land b 0x7) in
  let b := Z.shiftr b 6 in
  let ret := Z.lor ret (shl64 (Z.land b 0x1F) 3) in
  let b := Z.shiftr b 6 in
  let ret := Z.lor ret (shl64 (Z.land b 0x1FFFFF) 8) in
  let b := Z.shiftr b 22 in
  let ret := Z.lor ret (shl64 (Z.land b 0x1F) 29) in
  let b := Z.shiftr b 8 in
  let ret := Z.lor ret (shl64 (Z.land b 0x7) 34) in
  ret.

(** The eight accumulators [boards[NUM_ROTATIONS]] of [getCanonicalBits],
    indexed by the [Transform] labels the function gives them. *)
Record Boards8 := mkBoards8 {
  bd0 : Z; bd90 : Z; bd180 : Z; bd270 : Z;
  bdH : Z; bdV : Z; bdDiag : Z; bdAnti : Z }.

(** One iteration of the first loop of [getCanonicalBits]. *)
Definition canon_row_step (board : Z) (bs : Boards8) (i : Z) : Boards8 :=
  let row := getRow board i in
  let col := getCol board i in
  {| bd0 := bd0 bs;
     bd90 := Z.lor (bd90 bs) (shl64 (REVERSED col) (rowShift i));
     bd180 := Z.lor (bd180 bs) (shl64 (REVERSED row) (rowShift (MAX_ROW - i)));
     bd270 := Z.lor (bd270 bs) (shl64 col (rowShift (MAX_ROW - i)));
     bdH := Z.lor (bdH bs) (shl64 (REVERSED row) (rowShift i));
     bdV := Z.lor (bdV bs) (shl64 row (rowShift (MAX_ROW - i)));
     bdDiag := Z.lor (bdDiag bs) (shl64 col (rowShift i));
     bdAnti := Z.lor (bdAnti bs) (shl64 (REVERSED col) (rowShift (MAX_ROW - i))) |}.

Definition canon_boards (board : Z) : Boards8 :=
  fold_left (fun bs i => canon_row_step board bs (Z.of_nat i)) (seq 0 7)
    (mkBoards8 board EMPTY_BOARD EMPTY_BOARD EMPTY_BOARD
               EMPTY_BOARD EMPTY_BOARD EMPTY_BOARD EMPTY_BOARD).

(** [boards[i]]. *)
Definition boards_at (bs : Boards8) (t : Transform) : Z :=
  match t with
  | DEGREE_0 => bd0 bs | DEGREE_90 => bd90 bs | DEGREE_180 => bd180 bs
  | DEGREE_270 => bd270 bs | FLIP_H => bdH bs | FLIP_V => bdV bs
  | FLIP_DIAG => bdDiag bs | FLIP_ANTI => bdAnti bs
  end.

(** [msBoard::getCanonicalBits]: the second loop keeps the first strict
    minimum, starting from [best = board]. *)
Definition getCanonicalBits (board : Z) : Z * Transform :=
  let bs := canon_boards board in
  fold_left (fun (acc : Z * Transform) i =>
               let t := Transform_of_nat i in
               if boards_at bs t <? fst acc then (boards_at bs t, t) else acc)
            (seq 0 8) (board, DEGREE_0).

(** [msBoard::undoTransform]. *)
Definition undoTransform (m : Move) (t : Transform) : Move :=
  if decide (t = DEGREE_0) then m
  else let inv := inverseTransform t in
       mkMove (transformBoard (setBit m) inv) (transformBoard (clearBits m) inv).

(* ------------------------------------------------------------------ *)
(** ** msBitmap: the visited set *)

(** The configured backend ([HAVE_16GB_RAM] = 0) is a hash set of the
    [boardToBits] keys; the dense backend has the same [testAndSet]
    contract on keys below [2^37]. *)
Definition Seen := gset Z.

(** [testAndSet]: [true] iff the key was present; the key is inserted. *)
Definition testAndSet (seen : Seen) (b : Z) : bool * Seen :=
  let idx := boardToBits b in
  if decide (idx ∈ seen) then (true, seen) else (false, {[idx]} ∪ seen).

(* ------------------------------------------------------------------ *)
(** ** msSolver.cpp *)

Record StackFrame := mkFrame {
  fr_board : Z;
  moveIndex : nat;
  moveEnd : nat;
  movesStart : nat;
  transforms : list Transform;
  incomingMove : option Move }.

(** The state of [runDFS]: the stack [dfs] (head = top), the shared move
    buffer [moves] and the visited set [seen]. *)
Record DFSState := mkDFS {
  dfs : list StackFrame;
  moves : list Move;
  seen : Seen }.

Inductive StepResult :=
| Continue (st : DFSState)
| Return (sol : list Move)
| Stuck.   (* [moves[top.moveIndex]] out of range *)

(** [getMoveOrder]: [frames] lists the stack from the top down. *)
Fixpoint collect_moves (frames : list StackFrame) : list (Move * list Transform) :=
  match frames with
  | [] => []
  | f :: rest =>
      let parent := match rest with g :: _ => transforms g | [] => [] end in
      match incomingMove f with
      | Some m => (m, parent) :: collect_moves rest
      | None => collect_moves rest
      end
  end.

(** [for (int j = transforms[i].size() - 1; j >= 0; j--) undoTransform]. *)
Definition undo_all (m : Move) (ts : list Transform) : Move :=
  fold_left undoTransform (rev ts) m.

Definition getMoveOrder (frames : list StackFrame) : list Move :=
  rev (map (fun p => undo_all (fst p) (snd p)) (collect_moves frames)).

(** One iteration of the [while (!dfs.empty())] loop of [runDFS]. *)
Definition dfs_step (st : DFSState) : StepResult :=
  match dfs st with
  | [] => Return []
  | top :: rest =>
      if (moveEnd top <=? moveIndex top)%nat then
        (* [moves.reserve(top.movesStart)] leaves the buffer unchanged *)
        Continue (mkDFS rest (moves st) (seen st))
      else
        match nth_error (moves st) (moveIndex top) with
        | None => Stuck
        | Some m =>
            let top' := {| fr_board := fr_board top;
                           moveIndex := S (moveIndex top);
                           moveEnd := moveEnd top;
                           movesStart := movesStart top;
                           transforms := transforms top;
                           incomingMove := incomingMove top |} in
            let nextBoard := applyMove (fr_board top) m in
            let '(canonical, transform) := getCanonicalBits nextBoard in
            let '(hit, seen') := testAndSet (seen st) canonical in
            if hit then Continue (mkDFS (top' :: rest) (moves st) seen')
            else
              let start := length (moves st) in
              let moves' := validMoves canonical (moves st) in
              let end_ := length moves' in
              let newTrans := if decide (transform = DEGREE_0) then transforms top
                              else transforms top ++ [transform] in
              let child := mkFrame canonical start end_ start newTrans (Some m) in
              if hasWon nextBoard then Return (getMoveOrder (child :: top' :: rest))
              else Continue (mkDFS (child :: top' :: rest) moves' seen')
        end
  end.

(** [runDFS] with an explicit bound on the number of loop iterations;
    [None] when the bound is reached or the loop is stuck. *)
Fixpoint runDFS (fuel : nat) (st : DFSState) : option (list Move) :=
  match fuel with
  | O => None
  | S fuel' =>
      match dfs_step st with
      | Continue st' => runDFS fuel' st'
      | Return sol => Some sol
      | Stuck => None
      end
  end.

(** The initial state built by [msSolver::solve] (after [seen.clear()]). *)
Definition solve_init (startBoard : Z) : DFSState :=
  let '(startCanonical, startTransform) := getCanonicalBits startBoard in
  let trans := if decide (startTransform = DEGREE_0) then [] else [startTransform] in
  let ms := validMoves startCanonical [] in
  mkDFS [mkFrame startCanonical 0 (length ms) 0 trans None] ms ∅.

Definition solve (fuel : nat) (startBoard : Z) : option (list Move) :=
  runDFS fuel (solve_init startBoard).

(** A move sequence is a solution of [b]: each move passes the legality test
    on the board it is applied to and the last board is won. *)
Fixpoint plays_to_win (b : Z) (ms : list Move) : bool :=
  match ms with
  | [] => hasWon b
  | m :: ms' => move_ok b m && plays_to_win (applyMove b m) ms'
  end.

(** [k] iterations of the loop of [runDFS], when none of them returns. *)
Fixpoint dfs_iter (k : nat) (st : DFSState) : option DFSState :=
  match k with
  | O => Some st
  | S k' => match dfs_step st with
            | Continue st' => dfs_iter k' st'
            | _ => None
            end
  end.

(* ------------------------------------------------------------------ *)
(** ** isValidMove and getAMove *)

(** [int] arithmetic: [std::abs(x - y)] is defined when the difference is an
    [int] other than [INT_MIN]. *)
Definition int_abs_ok (x : Z) : bool := (- 2^31 <? x) && (x <? 2^31).

(** [msBoard::isValidMove]; [None] marks undefined behaviour (an
    out-of-bounds read of [PLAYABLE] or a signed overflow). *)
Definition isValidMove (board row col toRow toCol : Z) : option bool :=
  if negb (int_abs_ok (row - toRow) && int_abs_ok (col - toCol)) then None else
  let rowDif := Z.abs (row - toRow) in
  let colDif := Z.abs (col - toCol) in
  if (MAX_ROW <? toRow) || (toRow <? 0) || (MAX_COL <? toCol) || (toCol <? 0) then
    Some false
  else
    match PLAYABLE_at row col with
    | None => None
    | Some false => Some false
    | Some true =>
        match PLAYABLE_at toRow toCol with
        | None => None
        | Some false => Some false
        | Some true =>
            if negb (((rowDif =? 2) && (colDif =? 0)) || ((rowDif =? 0) && (colDif =? 2)))
            then Some false
            else if negb (getBit board row col =? 1) || (getBit board toRow toCol =? 1)
            then Some false
            else
              let midRow := Z.quot (row + toRow) 2 in
              let midCol := Z.quot (col + toCol) 2 in
              Some (getBit board midRow midCol =? 1)
        end
    end.

(** Outcome of a call that may throw. *)
Inductive Outcome (A : Type) :=
| Undefined
| Raised
| Returned (a : A).
Arguments Undefined {A}.
Arguments Raised {A}.
Arguments Returned {A} a.

(** [msBoard::getAMove]. *)
Definition getAMove (board row col toRow toCol : Z) : Outcome Move :=
  match isValidMove board row col toRow toCol with
  | None => Undefined
  | Some false => Raised
  | Some true =>
      let midRow := Z.quot (row + toRow) 2 in
      let midCol := Z.quot (col + toCol) 2 in
      let set := shl64 1 (bitIndex toRow toCol) in
      let clear := shl64 1 (bitIndex row col) in
      let clear := Z.lor clear (shl64 1 (bitIndex midRow midCol)) in
      Returned (mkMove set clear)
  end.

(* ------------------------------------------------------------------ *)
(** ** Geometry of the board *)

(** Number of playable cells in [PLAYABLE]. *)
Definition playable_count : nat :=
  fold_right (fun row acc => (length (List.filter id row) + acc)%nat) 0%nat PLAYABLE.

Definition zrange7 : list Z := map Z.of_nat (seq 0 7).

(** A jump from [(r, c)] to [(r', c')] on the board geometry: three playable
    cells, distance two along exactly one axis. *)
Definition geometric_jump (r c r' c' : Z) : bool :=
  let mr := Z.quot (r + r') 2 in
  let mc := Z.quot (c + c') 2 in
  playable r c && playable mr mc && playable r' c' &&
  (((Z.abs (r - r') =? 2) && (c =? c')) || ((r =? r') && (Z.abs (c - c') =? 2))).

(** The move encoding of such a jump. *)
Definition jump_move (r c r' c' : Z) : Move :=
  mkMove (shl64 1 (bitIndex r' c'))
         (Z.lor (shl64 1 (bitIndex r c))
                (shl64 1 (bitIndex (Z.quot (r + r') 2) (Z.quot (c + c') 2)))).

Definition all_jumps : list (Z * Z * Z * Z) :=
  flat_map (fun r => flat_map (fun c => flat_map (fun r' =>
    map (fun c' => (r, c, r', c')) zrange7) zrange7) zrange7) zrange7.

Definition mem_move (m : Move) (l : list Move) : bool :=
  existsb (fun x => bool_decide (x = m)) l.

(* ------------------------------------------------------------------ *)
(** ** Cell maps of the eight transforms *)

(** The grid bits are 15..63: bit [n] is cell [cell_of n]. *)
Definition in_grid (n : Z) : bool := (15 <=? n) && (n <=? 63).
Definition cell_of (n : Z) : Z * Z := ((63 - n) / 7, (63 - n) mod 7).

(** [transformBoard b t] holds at cell [(r, c)] the bit of [b] at cell
    [tsrc t (r, c)] (read off the loops of [transformBoard]). *)
Definition tsrc (t : Transform) (rc : Z * Z) : Z * Z :=
  let '(r, c) := rc in
  match t with
  | DEGREE_0 => (r, c)
  | DEGREE_90 => (c, 6 - r)
  | DEGREE_180 => (6 - r, 6 - c)
  | DEGREE_270 => (6 - c, r)
  | FLIP_H => (r, 6 - c)
  | FLIP_V => (6 - r, c)
  | FLIP_DIAG => (c, r)
  | FLIP_ANTI => (6 - c, 6 - r)
  end.

Definition srcbit (t : Transform) (n : Z) : Z :=
  let '(r, c) := tsrc t (cell_of n) in bitIndex r c.

(** The image [boards[t]] of [getCanonicalBits] is [transformBoard] at
    [canon_label t]: the two quarter turns carry each other's label. *)
Definition canon_label (t : Transform) : Transform :=
  match t with
  | DEGREE_90 => DEGREE_270
  | DEGREE_270 => DEGREE_90
  | t => t
  end.

(** Two marbles at (3,5) and (3,6): the only move is (3,6) over (3,5) to (3,4). *)
Definition board_c1 : Z := Z.lor (shl64 1 (bitIndex 3 5)) (shl64 1 (bitIndex 3 6)).

(** Four marbles at (3,0), (3,1), (3,3) and (3,4). *)
Definition board_c3 : Z :=
  Z.lor (Z.lor (shl64 1 (bitIndex 3 0)) (shl64 1 (bitIndex 3 1)))
        (Z.lor (shl64 1 (bitIndex 3 3)) (shl64 1 (bitIndex 3 4))).

(** The playable invariant: no marble outside the playable cells of
    [FULL_BOARD]. *)
Definition playable_inv (b : Z) : bool := Z.land b FULL_BOARD =? b.
(** All set bits lie on the 7x7 grid. *)
Definition on_grid (b : Z) : Prop := forall n, Z.testbit b n = true -> in_grid n = true.
Definition grid_bits : list Z := map Z.of_nat (seq 15 49).
(** The transform [w] with [transformBoard (transformBoard b t) u =
    transformBoard b w], found by its cell map. *)
Definition tcompose (t u : Transform) : Transform :=
  match find (fun w => forallb (fun n => srcbit w n =? srcbit t (srcbit u n)) grid_bits)
             all_transforms with
  | Some w => w
  | None => DEGREE_0
  end.


(** The image of a move under a transform: both masks transformed. *)
Definition moveT (t : Transform) (m : Move) : Move :=
  mkMove (transformBoard (setBit m) t) (transformBoard (clearBits m) t).

(* ---- popcount ---- *)
(** Integer sum of [f] over a list of bit positions. *)
Definition zsum (f : Z -> Z) (l : list Z) : Z := fold_right (fun n acc => f n + acc) 0 l.

Definition bit_range : list Z := map Z.of_nat (seq 0 64).

(* ---- boardToBits ---- *)
(** The position in the 33-bit [boardToBits] key of a playable board bit. *)
Definition key_of (n : Z) : Z :=
  if n <=? 19 then n - 17 else if n <=? 27 then n - 20 else if n <=? 49 then n - 21
  else if n <=? 55 then n - 22 else n - 25.

Definition playable_bits : list Z := List.filter (fun n => Z.testbit FULL_BOARD n) bit_range.

(* ---- reachability ---- *)
(** [b] can be won: some non-empty sequence of table moves, each legal when it
    is played, ends with a single marble. *)
Definition reaches_won (b : Z) : Prop :=
  exists ms, ms <> [] /\ Forall (fun m => In m ALL_MOVES) ms /\ plays_to_win b ms = true.

(** Boards the search can reach from [B]: moves from the table and transforms. *)
Inductive sym_reach (B : Z) : Z -> Prop :=
| sr_start : sym_reach B B
| sr_move b m : sym_reach B b -> In m ALL_MOVES -> move_ok b m = true ->
    sym_reach B (applyMove b m)
| sr_transform b t : sym_reach B b -> sym_reach B (transformBoard b t).

(* ---- the DFS invariant ---- *)
(** The moves [validMoves] appends for a frame on board [b]. *)
Definition frame_moves (b : Z) : list Move := filter (fun m => move_ok b m = true) ALL_MOVES.

(** The invariant of the DFS: each frame owns its slice of the move buffer;
    consumed successors are dead or on the stack; seen keys are dead or on the
    stack; popcounts increase down the stack; the root is the canonical start. *)
Definition frame_ok (B : Z) (buf : list Move) (f : StackFrame) : Prop :=
  playable_inv (fr_board f) = true /\ sym_reach B (fr_board f) /\
  (movesStart f <= moveIndex f <= moveEnd f)%nat /\
  moveEnd f = (movesStart f + length (frame_moves (fr_board f)))%nat /\
  exists pre post, buf = pre ++ frame_moves (fr_board f) ++ post /\ length pre = movesStart f.

Definition consumed_ok (fs : list StackFrame) (buf : list Move) : Prop :=
  forall i f j m, nth_error fs i = Some f -> (movesStart f <= j < moveIndex f)%nat ->
    nth_error buf j = Some m ->
    hasWon (applyMove (fr_board f) m) = false /\
    (~ reaches_won (applyMove (fr_board f) m) \/
     exists i' g, (i' < i)%nat /\ nth_error fs i' = Some g /\
                  fst (getCanonicalBits (applyMove (fr_board f) m)) = fr_board g).

Definition seen_ok (fs : list StackFrame) (K : Seen) : Prop :=
  forall k, k ∈ K -> exists d, playable_inv d = true /\ boardToBits d = k /\
    hasWon d = false /\ (~ reaches_won d \/ exists g, In g fs /\ fr_board g = d).

Definition pc_lt (f g : StackFrame) : Prop := popcount64 (fr_board f) < popcount64 (fr_board g).

Definition root_ok (B : Z) (fs : list StackFrame) : Prop :=
  (fs = [] -> ~ reaches_won B) /\
  (forall fs' root, fs = fs' ++ [root] -> fr_board root = fst (getCanonicalBits B)).

Record dfs_inv (B : Z) (st : DFSState) : Prop := {
  inv_frames : Forall (frame_ok B (moves st)) (dfs st);
  inv_consumed : consumed_ok (dfs st) (moves st);
  inv_seen : seen_ok (dfs st) (seen st);
  inv_sorted : StronglySorted pc_lt (dfs st);
  inv_root : root_ok B (dfs st) }.

(** A frame with its move index advanced, as [dfs_step] does. *)
Definition bump (f : StackFrame) : StackFrame :=
  {| fr_board := fr_board f; moveIndex := S (moveIndex f); moveEnd := moveEnd f;
     movesStart := movesStart f; transforms := transforms f; incomingMove := incomingMove f |}.

(** A board with a single marble, in the centre. *)
Definition board_c2 : Z := shl64 1 (bitIndex 3 3).


(* ------------------------------------------------------------------ *)
(** ** msGame.cpp: the interactive game *)

(** [enum msGame::Direction]. *)
Inductive Direction := UP | DOWN | LEFT | RIGHT.

(** 32-bit [unsigned] and [int]: unsigned arithmetic wraps modulo [2^32];
    an [unsigned] value outside the [int] range converts to [int] modulo
    [2^32] (two's complement, as GCC and C++20 define it). *)
Definition to_unsigned (x : Z) : Z := x mod 2^32.
Definition to_int (x : Z) : Z :=
  let y := x mod 2^32 in if y <? 2^31 then y else y - 2^32.

(** [(dir == UP) ? (int)row - 2 : (dir == DOWN) ? row + 2 : row], assigned to
    an [int]: the conditional has type [unsigned]; [None] when [(int)row - 2]
    overflows. [minus] and [plus] are the two direction tests. *)
Definition game_dest (minus plus : bool) (x : Z) : option Z :=
  if minus then
    let v := to_int x - 2 in
    if v <? - 2^31 then None else Some (to_int (to_unsigned v))
  else if plus then Some (to_int (to_unsigned (x + 2)))
  else Some (to_int x).

Definition is_up (d : Direction) : bool := match d with UP => true | _ => false end.
Definition is_down (d : Direction) : bool := match d with DOWN => true | _ => false end.
Definition is_left (d : Direction) : bool := match d with LEFT => true | _ => false end.
Definition is_right (d : Direction) : bool := match d with RIGHT => true | _ => false end.

(** The state of an [msGame]: its board and its [moveHistory]. *)
Record msGame := mkGame { board : Z; moveHistory : list Move }.

(** [msGame::isValidMove(unsigned row, unsigned col, Direction dir)]: the
    destination as above, then [board.isValidMove(row, col, (unsigned)
    destRow, (unsigned) destCol)], each argument converted to [int]. *)
Definition game_isValidMove (g : msGame) (row col : Z) (dir : Direction) : option bool :=
  match game_dest (is_up dir) (is_down dir) row,
        game_dest (is_left dir) (is_right dir) col with
  | Some destRow, Some destCol =>
      isValidMove (board g) (to_int row) (to_int col)
                  (to_int (to_unsigned destRow)) (to_int (to_unsigned destCol))
  | _, _ => None
  end.

(** [msGame::makeMove]: the returned [bool] and the new state; [None] marks
    undefined behaviour. A [runtime_error] from [getAMove] is caught and
    gives [false]. *)
Definition makeMove (g : msGame) (row col : Z) (dir : Direction) : option (bool * msGame) :=
  match game_isValidMove g row col dir with
  | None => None
  | Some false => Some (false, g)
  | Some true =>
      match game_dest (is_up dir) (is_down dir) row,
            game_dest (is_left dir) (is_right dir) col with
      | Some destRow, Some destCol =>
          match getAMove (board g) (to_int row) (to_int col) destRow destCol with
          | Returned move =>
              Some (true, mkGame (applyMove (board g) move) (moveHistory g ++ [move]))
          | Raised => Some (false, g)
          | Undefined => None
          end
      | _, _ => None
      end
  end.

(** [msGame::undoMove]: [moveHistory.back()], [pop_back()], [board.undoMove]. *)
Definition game_undoMove (g : msGame) : bool * msGame :=
  match rev (moveHistory g) with
  | [] => (false, g)
  | lastMove :: _ =>
      (true, mkGame (undoMove (board g) lastMove) (removelast (moveHistory g)))
  end.

(** [msGame::hasMoves]: [validMoves] into an empty vector, then [!m.empty()]. *)
Definition hasMoves (g : msGame) : bool :=
  match validMoves (board g) [] with [] => false | _ :: _ => true end.

(** [msBoard::Move::toString] and the text of the game's commands. *)
Module MoveText.
Import String Ascii.
Local Open Scope string_scope.

(** Decimal digits of [n >= 0], prepended to [acc]. *)
Fixpoint digits (fuel : nat) (n : Z) (acc : string) : string :=
  match fuel with
  | O => acc
  | S f =>
      let acc' := String (ascii_of_nat (48 + Z.to_nat (n mod 10))%nat) acc in
      if (n <? 10)%Z then acc' else digits f (n / 10) acc'
  end.

(** [std::to_string(int)]. *)
Definition to_string (z : Z) : string :=
  if (z <? 0)%Z then "-" ++ digits 20 (- z) "" else digits 20 z "".

(** The cells the loops of [toString] visit, in order: row [r], columns
    [COL_START_IDX[r]] to [COL_END_IDX[r]]. *)
Definition board_cells : list (Z * Z) :=
  flat_map (fun r =>
    let r := Z.of_nat r in
    let cs := nth (Z.to_nat r) COL_START_IDX 0 in
    let ce := nth (Z.to_nat r) COL_END_IDX 0 in
    map (fun k => (r, cs + Z.of_nat k)) (seq 0 (Z.to_nat (ce - cs + 1))))
  (seq 0 7).

(** [msBoard::Move::toString]; the jumped cell it also records is discarded
    ([(void) jumpedRow]) and does not enter the result. *)
Definition Move_toString (m : Move) : string :=
  let '(destRow, destCol) :=
    fold_left (fun (acc : Z * Z) rc => let '(r, c) := rc in
                 if negb (Z.land (Z.shiftr (setBit m) (bitIndex r c)) 1 =? 0)%Z
                 then (r, c) else acc)
              board_cells (-1, -1) in
  let '(originRow, originCol) :=
    fold_left (fun (acc : Z * Z) rc => let '(r, c) := rc in
                 if negb (Z.land (Z.shiftr (clearBits m) (bitIndex r c)) 1 =? 0)%Z then
                   if ((Z.abs (r - destRow) =? 2) && (c =? destCol))%Z ||
                      ((Z.abs (c - destCol) =? 2) && (r =? destRow))%Z
                   then (r, c) else acc
                 else acc)
              board_cells (-1, -1) in
  let dir :=
    if ((originRow =? destRow) && (originCol + 2 =? destCol))%Z then "right"
    else if ((originRow =? destRow) && (originCol - 2 =? destCol))%Z then "left"
    else if ((originCol =? destCol) && (originRow + 2 =? destRow))%Z then "down"
    else if ((originCol =? destCol) && (originRow - 2 =? destRow))%Z then "up"
    else "unknown" in
  to_string originRow ++ " " ++ to_string originCol ++ " " ++ dir.

(** The command text [row col direction] of [msGame::MoveInfo]. *)
Definition dir_name (d : Direction) : string :=
  match d with UP => "up" | DOWN => "down" | LEFT => "left" | RIGHT => "right" end.

Definition move_text (row col : Z) (d : Direction) : string :=
  to_string row ++ " " ++ to_string col ++ " " ++ dir_name d.

End MoveText.

(** Row and column offsets of a direction. *)
Definition drow (d : Direction) : Z := match d with UP => -2 | DOWN => 2 | _ => 0 end.
Definition dcol (d : Direction) : Z := match d with LEFT => -2 | RIGHT => 2 | _ => 0 end.
Definition all_dirs : list Direction := [UP; DOWN; LEFT; RIGHT].

(** [msGame::useCustomBoard]. *)
Definition useCustomBoard (g : msGame) (row col : N) : msGame :=
  mkGame (msBoard_rc row col) [].

(** Number of [boardToBits] keys, [2^37]. *)
Definition key_space : nat := Z.to_nat (2^37).

(** Work left on the stack for a fixed visited set: per frame, the moves not
    yet tried plus one for its pop. *)
Definition pot (st : DFSState) : nat :=
  fold_right (fun f acc => (moveEnd f - moveIndex f + 1 + acc)%nat) 0%nat (dfs st).

(* ================================================================== *)
(** * Properties *)

(* ------------------------------------------------------------------ *)
(** ** Bit-level helper lemmas *)

Lemma mask64_bit n : 0 <= n -> Z.testbit mask64 n = (n <? 64).
Proof.
  intros Hn. unfold mask64. rewrite Z.testbit_ones by lia.
  destruct (Z.leb_spec 0 n); [reflexivity | lia].
Qed.

Lemma bound64_high b n : 0 <= b < 2^64 -> 64 <= n -> Z.testbit b n = false.
Proof.
  intros Hb Hn. rewrite <- (Z.mod_small b (2^64)) by lia.
  apply Z.mod_pow2_bits_high. lia.
Qed.

Lemma land_eq_bits x y :
  Z.land x y = y <-> forall n, 0 <= n -> Z.testbit y n = true -> Z.testbit x n = true.
Proof.
  split.
  - intros H n Hn Hy. rewrite <- H in Hy. rewrite Z.land_spec in Hy.
    now apply andb_true_iff in Hy.
  - intros H. apply Z.bits_inj'. intros n Hn. rewrite Z.land_spec.
    destruct (Z.testbit y n) eqn:E; [rewrite (H n Hn E); reflexivity | apply andb_false_r].
Qed.

Lemma land_zero_bits x y :
  Z.land x y = 0 <-> forall n, 0 <= n -> Z.testbit x n && Z.testbit y n = false.
Proof.
  split.
  - intros H n Hn. rewrite <- Z.land_spec, H. apply Z.bits_0.
  - intros H. apply Z.bits_inj'. intros n Hn. rewrite Z.land_spec, Z.bits_0. auto.
Qed.

Lemma in_zrange7 r : 0 <= r < 7 -> In r zrange7.
Proof.
  intros H. unfold zrange7. apply in_map_iff. exists (Z.to_nat r).
  split; [lia | apply in_seq; lia].
Qed.

Lemma mem_move_In m l : mem_move m l = true <-> In m l.
Proof.
  unfold mem_move. rewrite existsb_exists. split.
  - intros [x [Hx Hd]]. apply bool_decide_eq_true in Hd. now subst.
  - intros H. exists m. split; [exact H | now apply bool_decide_eq_true].
Qed.

(* ------------------------------------------------------------------ *)
(** ** C4: marble counts of the fixed boards *)

(** C4 (as stated, refuted): the playable table has 37 cells, not 33, and the
    full board holds 37 marbles. *)
Lemma C4_counterexample :
  ~ (playable_count = 33%nat /\ popcount64 FULL_BOARD = 33 /\
     forall row col, popcount64 (msBoard_rc row col) = 32).
Proof. intros [H _]. vm_compute in H. discriminate H. Qed.

(** C4 (amended): [PLAYABLE] has exactly 37 playable cells, [FULL_BOARD] has
    popcount 37, and every board built by either constructor has popcount
    36 (the full board minus one playable cell). *)
Lemma C4_counts_amended :
  playable_count = 37%nat /\ popcount64 FULL_BOARD = 37 /\
  popcount64 msBoard_default = 36 /\
  forall row col, popcount64 (msBoard_rc row col) = 36.
Proof.
  split; [reflexivity|]. split; [reflexivity|]. split; [reflexivity|].
  intros row col. unfold msBoard_rc.
  destruct (MAX_ROW <? Z.of_N row) eqn:Hr; [reflexivity|].
  destruct (MAX_COL <? Z.of_N col) eqn:Hc; [reflexivity|].
  apply Z.ltb_ge in Hr, Hc. unfold MAX_ROW, MAX_COL, NUM_ROWS, NUM_COLS in *.
  assert (Hrow : In (Z.of_N row) zrange7) by (apply in_zrange7; lia).
  assert (Hcol : In (Z.of_N col) zrange7) by (apply in_zrange7; lia).
  simpl in Hrow, Hcol.
  destruct Hrow as [<-|[<-|[<-|[<-|[<-|[<-|[<-|[]]]]]]]];
  destruct Hcol as [<-|[<-|[<-|[<-|[<-|[<-|[<-|[]]]]]]]]; vm_compute; reflexivity.
Qed.

(* ------------------------------------------------------------------ *)
(** ** C5: the move table *)

Lemma in_all_jumps r c r' c' :
  0 <= r < 7 -> 0 <= c < 7 -> 0 <= r' < 7 -> 0 <= c' < 7 ->
  In (r, c, r', c') all_jumps.
Proof.
  intros Hr Hc Hr' Hc'. unfold all_jumps.
  apply in_flat_map. exists r. split; [now apply in_zrange7|].
  apply in_flat_map. exists c. split; [now apply in_zrange7|].
  apply in_flat_map. exists r'. split; [now apply in_zrange7|].
  apply in_map_iff. exists c'. split; [reflexivity | now apply in_zrange7].
Qed.

Lemma all_jumps_range r c r' c' :
  In (r, c, r', c') all_jumps ->
  0 <= r < 7 /\ 0 <= c < 7 /\ 0 <= r' < 7 /\ 0 <= c' < 7.
Proof.
  unfold all_jumps, zrange7. intros H.
  apply in_flat_map in H as [x [Hx H]]. apply in_flat_map in H as [y [Hy H]].
  apply in_flat_map in H as [z [Hz H]]. apply in_map_iff in H as [w [Hw Hw']].
  injection Hw as <- <- <- <-.
  apply in_map_iff in Hx as [a [<- Ha]]. apply in_map_iff in Hy as [b [<- Hb]].
  apply in_map_iff in Hz as [d [<- Hd]]. apply in_map_iff in Hw' as [e [<- He]].
  apply in_seq in Ha, Hb, Hd, He. lia.
Qed.

Lemma all_moves_are_jumps :
  forallb (fun m => existsb (fun q => let '(r, c, r', c') := q in
                       geometric_jump r c r' c' && bool_decide (jump_move r c r' c' = m))
                      all_jumps) ALL_MOVES = true.
Proof. vm_compute. reflexivity. Qed.

Lemma all_jumps_are_moves :
  forallb (fun q => let '(r, c, r', c') := q in
             negb (geometric_jump r c r' c') || mem_move (jump_move r c r' c') ALL_MOVES)
          all_jumps = true.
Proof. vm_compute. reflexivity. Qed.

(** C5 (as stated, refuted): the table built by [setupAllMoves] does not
    have 76 entries. *)
Lemma C5_counterexample : length ALL_MOVES <> 76%nat.
Proof. vm_compute. discriminate. Qed.

(** C5 (amended): [ALL_MOVES] has exactly 92 pairwise distinct moves, and a
    move is in it exactly when it encodes a geometrically legal jump between
    playable cells of the 7x7 grid. *)
Lemma C5_move_table_amended :
  length ALL_MOVES = 92%nat /\ NoDup ALL_MOVES /\
  forall m, In m ALL_MOVES <->
    exists r c r' c', 0 <= r < 7 /\ 0 <= c < 7 /\ 0 <= r' < 7 /\ 0 <= c' < 7 /\
      geometric_jump r c r' c' = true /\ m = jump_move r c r' c'.
Proof.
  split; [vm_compute; reflexivity|]. split.
  { apply (bool_decide_eq_true_1 (NoDup ALL_MOVES)). vm_compute. reflexivity. }
  intros m. split.
  - intros Hm. pose proof all_moves_are_jumps as H.
    rewrite forallb_forall in H. specialize (H m Hm).
    apply existsb_exists in H as [[[[r c] r'] c'] [Hq Hg]].
    apply andb_true_iff in Hg as [Hg He]. apply bool_decide_eq_true in He.
    destruct (all_jumps_range _ _ _ _ Hq) as (? & ? & ? & ?).
    exists r, c, r', c'. repeat split; auto; lia.
  - intros (r & c & r' & c' & Hr & Hc & Hr' & Hc' & Hg & ->).
    pose proof all_jumps_are_moves as H. rewrite forallb_forall in H.
    specialize (H _ (in_all_jumps r c r' c' Hr Hc Hr' Hc')). simpl in H.
    rewrite Hg in H. now apply mem_move_In.
Qed.

(* ------------------------------------------------------------------ *)
(** ** C6: the default board and the fallback of the custom constructor *)

(** C6 (as stated, refuted): the default board does not hold 32 marbles and
    cell (2,3) holds a marble. *)
Lemma C6_counterexample :
  ~ (popcount64 msBoard_default = 32 /\
     Z.testbit msBoard_default (bitIndex 2 3) = false).
Proof. intros [H _]. vm_compute in H. discriminate H. Qed.

Lemma default_empty_cells :
  forallb (fun r => forallb (fun c =>
     negb (playable r c) ||
     Bool.eqb (negb (Z.testbit msBoard_default (bitIndex r c))) ((r =? 0) && (c =? 2)))
     zrange7) zrange7 = true.
Proof. vm_compute. reflexivity. Qed.

(** C6 (amended): the default board has 36 marbles and (0,2) is its only
    empty playable cell; [msBoard(row, col)] returns the default board
    whenever [(row, col)] is out of range or not playable. *)
Lemma C6_default_board_amended :
  popcount64 msBoard_default = 36 /\
  (forall r c, 0 <= r < 7 -> 0 <= c < 7 -> playable r c = true ->
     (Z.testbit msBoard_default (bitIndex r c) = false <-> r = 0 /\ c = 2)) /\
  (forall row col : N,
     (6 < Z.of_N row \/ 6 < Z.of_N col \/ playable (Z.of_N row) (Z.of_N col) = false) ->
     msBoard_rc row col = msBoard_default).
Proof.
  split; [vm_compute; reflexivity|]. split.
  - intros r c Hr Hc Hp. pose proof default_empty_cells as H.
    rewrite forallb_forall in H. specialize (H r (in_zrange7 r Hr)).
    rewrite forallb_forall in H. specialize (H c (in_zrange7 c Hc)).
    rewrite Hp in H. simpl in H. apply Bool.eqb_prop in H.
    destruct (Z.testbit msBoard_default (bitIndex r c)); simpl in H;
      split; intros Hx.
    + discriminate.
    + destruct Hx as [-> ->]. discriminate.
    + symmetry in H. apply andb_true_iff in H as [H1 H2]. lia.
    + reflexivity.
  - intros row col H. unfold msBoard_rc, msBoard_default, MAX_ROW, MAX_COL, NUM_ROWS, NUM_COLS.
    destruct H as [H|[H|H]].
    + replace (7 - 1 <? Z.of_N row) with true by (symmetry; apply Z.ltb_lt; lia). reflexivity.
    + replace (7 - 1 <? Z.of_N col) with true by (symmetry; apply Z.ltb_lt; lia).
      rewrite orb_true_r. reflexivity.
    + rewrite H. rewrite !orb_true_r. reflexivity.
Qed.

(* ------------------------------------------------------------------ *)
(** ** C7 and C10: isValidMove and getAMove *)

(** C7 (code defect): [isValidMove] checks the bounds of [toRow] and
    [toCol] only, so a source row outside [0, 7) is used to index
    [PLAYABLE] out of bounds, whatever the board. *)
Lemma C7_isValidMove_row_out_of_bounds :
  forall board, isValidMove board 7 0 5 0 = None /\ isValidMove board (-1) 3 1 3 = None.
Proof. intros board. split; reflexivity. Qed.

(** C10: [getAMove] throws exactly when [isValidMove] returns false (and is
    undefined exactly when [isValidMove] is); a returned move sets the
    destination bit and clears the origin and midpoint bits. *)
Theorem C10_getAMove_spec :
  forall board row col toRow toCol,
    (getAMove board row col toRow toCol = Raised <->
       isValidMove board row col toRow toCol = Some false) /\
    (getAMove board row col toRow toCol = Undefined <->
       isValidMove board row col toRow toCol = None) /\
    (forall m, getAMove board row col toRow toCol = Returned m ->
       isValidMove board row col toRow toCol = Some true /\
       setBit m = shl64 1 (bitIndex toRow toCol) /\
       clearBits m = Z.lor (shl64 1 (bitIndex row col))
                           (shl64 1 (bitIndex (Z.quot (row + toRow) 2)
                                              (Z.quot (col + toCol) 2)))).
Proof.
  intros board row col toRow toCol. unfold getAMove.
  destruct (isValidMove board row col toRow toCol) as [[|]|];
    repeat split; intros; try discriminate; try reflexivity.
  all: match goal with H : Returned _ = Returned _ |- _ => injection H as <- end; reflexivity.
Qed.

(* ------------------------------------------------------------------ *)
(** ** C9: undoMove inverts applyMove *)

(** C9: on a 64-bit board [b] where [m] is legal (its clear bits set in [b],
    its set bit clear in [b]), [undoMove] after [applyMove] gives back [b]. *)
Theorem C9_undo_apply :
  forall b m, 0 <= b < 2^64 ->
    Z.land b (clearBits m) = clearBits m ->
    Z.land b (setBit m) = 0 ->
    undoMove (applyMove b m) m = b.
Proof.
  intros b [s c] Hb Hc Hs. simpl in *.
  rewrite land_eq_bits in Hc. rewrite land_zero_bits in Hs.
  unfold undoMove, applyMove, lnot64; simpl.
  apply Z.bits_inj'. intros n Hn.
  rewrite !Z.lor_spec, !Z.land_spec, !Z.lor_spec, !Z.lxor_spec, !mask64_bit by lia.
  specialize (Hc n Hn). specialize (Hs n Hn).
  destruct (Z.ltb_spec n 64).
  - destruct (Z.testbit b n), (Z.testbit s n), (Z.testbit c n); simpl in *;
      try reflexivity; try discriminate; specialize (Hc eq_refl); discriminate.
  - rewrite (bound64_high b n Hb) in * by lia.
    destruct (Z.testbit c n); [specialize (Hc eq_refl); discriminate|].
    destruct (Z.testbit s n); reflexivity.
Qed.

Lemma C9_undo_apply_witness :
  0 <= DEFAULT_BOARD < 2^64 /\
  Z.land DEFAULT_BOARD (clearBits (jump_move 2 2 0 2)) = clearBits (jump_move 2 2 0 2) /\
  Z.land DEFAULT_BOARD (setBit (jump_move 2 2 0 2)) = 0 /\
  undoMove (applyMove DEFAULT_BOARD (jump_move 2 2 0 2)) (jump_move 2 2 0 2) = DEFAULT_BOARD.
Proof.
  assert (H1 : 0 <= DEFAULT_BOARD < 2^64) by (vm_compute; split; congruence).
  assert (H2 : Z.land DEFAULT_BOARD (clearBits (jump_move 2 2 0 2)) =
               clearBits (jump_move 2 2 0 2)) by (vm_compute; reflexivity).
  assert (H3 : Z.land DEFAULT_BOARD (setBit (jump_move 2 2 0 2)) = 0)
    by (vm_compute; reflexivity).
  split; [exact H1|]. split; [exact H2|]. split; [exact H3|].
  exact (C9_undo_apply DEFAULT_BOARD (jump_move 2 2 0 2) H1 H2 H3).
Defined.

(* ------------------------------------------------------------------ *)
(** ** C1 and C3: concrete runs of the solver *)

(** C1 (code defect): on the board with marbles at (3,5) and (3,6) the
    canonical image is labelled [DEGREE_90]; the first loop iteration of
    [runDFS] already wins and returns the jump (3,0) over (3,1) to (3,2),
    which is illegal on that board, while (3,6) over (3,5) to (3,4) wins. *)
Lemma C1_solution_wrong_frame :
  (snd (getCanonicalBits board_c1) = DEGREE_90) /\
  (dfs_step (solve_init board_c1) = Return [jump_move 3 0 3 2]) /\
  (solve 1 board_c1 = Some [jump_move 3 0 3 2]) /\
  (move_ok board_c1 (jump_move 3 0 3 2) = false) /\
  (plays_to_win board_c1 [jump_move 3 6 3 4] = true).
Proof. vm_compute. repeat split. Qed.

(** C3 (code defect): in the run of [solve] on [board_c3], after three loop
    iterations the top frame is exhausted; the next iteration pops it but
    leaves the buffer longer than that frame's [movesStart], so the moves it
    appended are still there. *)
Lemma C3_pop_keeps_frame_moves :
  match dfs_iter 3 (solve_init board_c3) with
  | Some st =>
      match dfs st with
      | top :: rest =>
          (moveEnd top <= moveIndex top)%nat /\
          dfs_step st = Continue (mkDFS rest (moves st) (seen st)) /\
          (movesStart top < length (moves st))%nat
      | [] => False
      end
  | None => False
  end.
Proof. vm_compute. split; [lia | split; [reflexivity | lia]]. Qed.

(* ------------------------------------------------------------------ *)
(** ** Bits of the row, column and transform helpers *)

Lemma shl64_bit x k n :
  Z.testbit (shl64 x k) n = (0 <=? n) && (n <? 64) && Z.testbit x (n - k).
Proof.
  unfold shl64. rewrite Z.land_spec.
  destruct (Z.leb_spec 0 n).
  - rewrite Z.shiftl_spec, mask64_bit by lia. simpl. apply andb_comm.
  - rewrite Z.testbit_neg_r by lia. reflexivity.
Qed.

Lemma getRow_bit b r j :
  Z.testbit (getRow b r) j = (0 <=? j) && (j <? 7) && Z.testbit b (j + rowShift r).
Proof.
  unfold getRow. rewrite Z.land_spec.
  destruct (Z.leb_spec 0 j).
  - rewrite Z.shiftr_spec by lia. simpl.
    replace (Z.testbit 127 j) with (j <? 7).
    + apply andb_comm.
    + change 127 with (Z.ones 7). rewrite Z.testbit_ones by lia.
      destruct (Z.leb_spec 0 j); [reflexivity | lia].
  - rewrite Z.testbit_neg_r by lia. reflexivity.
Qed.

Lemma small_bit_cases j :
  0 <= j < 7 -> j = 0 \/ j = 1 \/ j = 2 \/ j = 3 \/ j = 4 \/ j = 5 \/ j = 6.
Proof. lia. Qed.

Lemma shiftl_land1_bit x k j :
  0 <= k -> Z.testbit (Z.shiftl (Z.land x 1) k) j = (j =? k) && Z.testbit x 0.
Proof.
  intros Hk. destruct (Z.leb_spec 0 j).
  - rewrite Z.shiftl_spec, Z.land_spec by lia.
    destruct (Z.eqb_spec j k).
    + subst. rewrite Z.sub_diag. simpl. apply andb_true_r.
    + destruct (Z.ltb_spec (j - k) 0).
      * rewrite Z.testbit_neg_r by lia. reflexivity.
      * rewrite (Z.bits_above_log2 1) by (simpl; lia). apply andb_false_r.
  - rewrite Z.testbit_neg_r by lia. destruct (Z.eqb_spec j k); [lia | reflexivity].
Qed.

Lemma getCol_bit b c j :
  Z.testbit (getCol b c) j =
    (0 <=? j) && (j <? 7) && Z.testbit b (ROW_IDX (6 - j) - c).
Proof.
  unfold getCol. rewrite !Z.lor_spec.
  rewrite !shiftl_land1_bit by lia.
  assert (E : Z.testbit (Z.land (Z.shiftr b (ROW_IDX 6 - c)) 1) j =
              (j =? 0) && Z.testbit b (ROW_IDX 6 - c)).
  { destruct (Z.leb_spec 0 j).
    - rewrite Z.land_spec, Z.shiftr_spec by lia.
      destruct (Z.eqb_spec j 0).
      + subst. simpl. apply andb_true_r.
      + rewrite (Z.bits_above_log2 1) by (simpl; lia). apply andb_false_r.
    - rewrite Z.testbit_neg_r by lia. destruct (Z.eqb_spec j 0); [lia | reflexivity]. }
  rewrite E. clear E.
  rewrite !Z.shiftr_spec by (unfold ROW_IDX, MAX_BOARD_IDX, NUM_COLS; lia).
  destruct (Z.leb_spec 0 j); [|destruct (Z.ltb_spec j 7); simpl;
    repeat match goal with |- context [?a =? ?b] => destruct (Z.eqb_spec a b); [lia|] end;
    reflexivity].
  destruct (Z.ltb_spec j 7).
  - assert (Hj : 0 <= j < 7) by lia. apply small_bit_cases in Hj.
    destruct Hj as [->|[->|[->|[->|[->|[->| ->]]]]]]; simpl;
      rewrite ?orb_false_r; reflexivity.
  - simpl. repeat match goal with |- context [?a =? ?b] => destruct (Z.eqb_spec a b); [lia|] end.
    reflexivity.
Qed.

Lemma land_pow2_bit x k m :
  0 <= k -> Z.testbit (Z.land x (2 ^ k)) m = (m =? k) && Z.testbit x k.
Proof.
  intros Hk. destruct (Z.leb_spec 0 m).
  - rewrite Z.land_spec, Z.pow2_bits_eqb by lia.
    destruct (Z.eqb_spec k m), (Z.eqb_spec m k); subst; try lia;
      simpl; rewrite ?andb_true_r, ?andb_false_r; reflexivity.
  - rewrite Z.testbit_neg_r by lia. destruct (Z.eqb_spec m k); [lia | reflexivity].
Qed.

Lemma REVERSED_bit x j :
  Z.testbit (REVERSED x) j = (0 <=? j) && (j <? 7) && Z.testbit x (6 - j).
Proof.
  unfold REVERSED, reverse7.
  change 0x01 with (2^0). change 0x02 with (2^1). change 0x04 with (2^2).
  change 0x08 with (2^3). change 0x10 with (2^4). change 0x20 with (2^5).
  change 0x40 with (2^6).
  destruct (Z.leb_spec 0 j).
  - rewrite !Z.lor_spec, !Z.shiftl_spec, !Z.shiftr_spec, !land_pow2_bit by lia.
    rewrite Z.bits_0.
    destruct (Z.ltb_spec j 7).
    + assert (Hj : 0 <= j < 7) by lia. apply small_bit_cases in Hj.
      destruct Hj as [->|[->|[->|[->|[->|[->| ->]]]]]]; simpl;
        rewrite ?orb_false_r; reflexivity.
    + simpl. repeat match goal with |- context [?a =? ?b] => destruct (Z.eqb_spec a b); [lia|] end.
      reflexivity.
  - rewrite Z.testbit_neg_r by lia. reflexivity.
Qed.

Lemma insertRow_bit out r v n :
  0 <= rowShift r <= 57 -> 0 <= n ->
  Z.testbit (insertRow out r v) n =
    if (rowShift r <=? n) && (n <? rowShift r + 7) then Z.testbit v (n - rowShift r)
    else Z.testbit (shl64 v (rowShift r)) n || ((n <? 64) && Z.testbit out n).
Proof.
  intros Hs Hn. unfold insertRow, lnot64.
  rewrite Z.lor_spec, Z.land_spec, Z.lxor_spec, mask64_bit, !shl64_bit by lia.
  replace (Z.testbit 0x7F (n - rowShift r)) with
    ((0 <=? n - rowShift r) && (n - rowShift r <? 7)).
  2:{ change 0x7F with (Z.ones 7). destruct (Z.leb_spec 0 (n - rowShift r)).
      - rewrite Z.testbit_ones by lia. destruct (Z.leb_spec 0 (n - rowShift r)); [reflexivity|lia].
      - rewrite Z.testbit_neg_r by lia. reflexivity. }
  destruct (Z.leb_spec (rowShift r) n), (Z.ltb_spec n (rowShift r + 7)),
           (Z.leb_spec 0 n), (Z.ltb_spec n 64), (Z.leb_spec 0 (n - rowShift r)),
           (Z.ltb_spec (n - rowShift r) 7); try lia; simpl;
    rewrite ?andb_false_r, ?andb_true_r, ?orb_false_r; try reflexivity; apply orb_comm.
Qed.

Lemma insertRow_high out r v n :
  0 <= rowShift r <= 57 -> 64 <= n -> Z.testbit (insertRow out r v) n = false.
Proof.
  intros Hs Hn. unfold insertRow, lnot64.
  rewrite Z.lor_spec, Z.land_spec, Z.lxor_spec, mask64_bit, !shl64_bit by lia.
  destruct (Z.ltb_spec n 64); [lia|]. rewrite !andb_false_r. simpl.
  rewrite ?xorb_false_r, ?andb_false_r. reflexivity.
Qed.

Lemma rows_loop_unroll f init :
  rows_loop f init = f (f (f (f (f (f (f init 0) 1) 2) 3) 4) 5) 6.
Proof. reflexivity. Qed.

Lemma Z_cases_64 n :
  0 <= n < 64 -> In n (map Z.of_nat (seq 0 64)).
Proof.
  intros H. apply in_map_iff. exists (Z.to_nat n). split; [lia | apply in_seq; lia].
Qed.

Ltac shift_bounds :=
  unfold rowShift, ROW_IDX, MAX_ROW, MAX_BOARD_IDX, NUM_COLS, NUM_ROWS; lia.

Ltac split64 n :=
  let H := fresh in
  assert (H : In n (map Z.of_nat (seq 0 64))) by (apply Z_cases_64; lia);
  cbn [map seq Z.of_nat Pos.of_succ_nat Pos.succ] in H;
  repeat (destruct H as [<-|H]; [simpl; rewrite ?orb_false_r; reflexivity|]);
  destruct H.

Lemma tb_bit_low b t n :
  t <> DEGREE_0 -> 0 <= n < 64 ->
  Z.testbit (transformBoard b t) n = in_grid n && Z.testbit b (srcbit t n).
Proof.
  intros Ht Hn. destruct t; [congruence| | | | | | |];
  unfold transformBoard; rewrite rows_loop_unroll; cbv beta;
  rewrite !insertRow_bit by (try shift_bounds; lia);
  rewrite ?shl64_bit, ?REVERSED_bit, ?getCol_bit, ?getRow_bit; unfold EMPTY_BOARD;
  rewrite ?Z.bits_0; split64 n.
Qed.

Lemma cb_bit_low b t n :
  t <> DEGREE_0 -> 0 <= n < 64 ->
  Z.testbit (boards_at (canon_boards b) t) n = in_grid n && Z.testbit b (srcbit (canon_label t) n).
Proof.
  intros Ht Hn. destruct t; [congruence| | | | | | |];
  unfold canon_boards; cbn [fold_left seq Z.of_nat canon_row_step boards_at bd90 bd180 bd270 bdH bdV bdDiag bdAnti canon_label];
  rewrite ?Z.lor_spec, ?shl64_bit, ?REVERSED_bit, ?getCol_bit, ?getRow_bit; unfold EMPTY_BOARD;
  rewrite ?Z.bits_0; split64 n.
Qed.

Lemma tb_high b t n :
  t <> DEGREE_0 -> 64 <= n -> Z.testbit (transformBoard b t) n = false.
Proof.
  intros Ht Hn. destruct t; [congruence| | | | | | |];
  unfold transformBoard; rewrite rows_loop_unroll; cbv beta;
  apply insertRow_high; try shift_bounds; lia.
Qed.

Lemma srcbit_D0 n : srcbit DEGREE_0 n = n.
Proof.
  unfold srcbit, tsrc, cell_of, bitIndex, ROW_IDX, MAX_BOARD_IDX, NUM_COLS.
  pose proof (Z.div_mod (63 - n) 7). lia.
Qed.

Lemma tb_bit_grid b t n :
  on_grid b -> Z.testbit (transformBoard b t) n = in_grid n && Z.testbit b (srcbit t n).
Proof.
  intros Hb. destruct (decide (t = DEGREE_0)) as [->|Ht].
  - rewrite srcbit_D0. simpl. destruct (Z.testbit b n) eqn:E.
    + rewrite (Hb n E). reflexivity.
    + symmetry. apply andb_false_r.
  - destruct (Z.ltb_spec n 0).
    + rewrite Z.testbit_neg_r by lia. unfold in_grid.
      destruct (Z.leb_spec 15 n); [lia | reflexivity].
    + destruct (Z.ltb_spec n 64).
      * apply tb_bit_low; [exact Ht | lia].
      * rewrite tb_high by (auto; lia). unfold in_grid.
        destruct (Z.leb_spec n 63); [lia | rewrite andb_false_r; reflexivity].
Qed.

Lemma on_grid_transform b t : on_grid b -> on_grid (transformBoard b t).
Proof.
  intros Hb n. rewrite tb_bit_grid by exact Hb. apply andb_prop.
Qed.

Lemma all_transforms_In t : In t all_transforms.
Proof. destruct t; simpl; tauto. Qed.

Lemma tcompose_table :
  forallb (fun t => forallb (fun u => forallb (fun n =>
      in_grid (srcbit u n) && (srcbit t (srcbit u n) =? srcbit (tcompose t u) n))
    grid_bits) all_transforms) all_transforms = true.
Proof. vm_compute. reflexivity. Qed.

Lemma tcompose_spec t u n :
  in_grid n = true ->
  in_grid (srcbit u n) = true /\ srcbit t (srcbit u n) = srcbit (tcompose t u) n.
Proof.
  intros Hn. pose proof tcompose_table as H.
  rewrite forallb_forall in H. specialize (H t (all_transforms_In t)).
  rewrite forallb_forall in H. specialize (H u (all_transforms_In u)).
  rewrite forallb_forall in H.
  assert (Hin : In n grid_bits).
  { unfold in_grid in Hn. apply andb_prop in Hn as [H1 H2].
    apply Z.leb_le in H1. apply Z.leb_le in H2.
    unfold grid_bits. apply in_map_iff. exists (Z.to_nat n).
    split; [lia | apply in_seq; lia]. }
  specialize (H n Hin). apply andb_prop in H as [H1 H2].
  split; [exact H1 | apply Z.eqb_eq; exact H2].
Qed.

Lemma tcompose_surj t v : exists u, tcompose t u = v.
Proof.
  assert (H : forallb (fun t => forallb (fun v =>
            existsb (fun u => bool_decide (tcompose t u = v)) all_transforms)
            all_transforms) all_transforms = true) by (vm_compute; reflexivity).
  rewrite forallb_forall in H. specialize (H t (all_transforms_In t)).
  rewrite forallb_forall in H. specialize (H v (all_transforms_In v)).
  apply existsb_exists in H as [u [_ Hu]]. exists u.
  apply bool_decide_eq_true in Hu. exact Hu.
Qed.

Lemma transformBoard_compose b t u :
  on_grid b -> transformBoard (transformBoard b t) u = transformBoard b (tcompose t u).
Proof.
  intros Hb. apply Z.bits_inj'. intros n _.
  rewrite (tb_bit_grid _ _ _ (on_grid_transform b t Hb)), !tb_bit_grid by exact Hb.
  destruct (in_grid n) eqn:Hn; [|reflexivity].
  destruct (tcompose_spec t u n Hn) as [H1 H2]. rewrite H1, H2. reflexivity.
Qed.

Lemma canon_image b t :
  boards_at (canon_boards b) t = transformBoard b (canon_label t).
Proof.
  destruct (decide (t = DEGREE_0)) as [->|Ht]; [reflexivity|].
  apply Z.bits_inj'. intros n Hn.
  destruct (Z.ltb_spec n 64).
  - rewrite cb_bit_low, tb_bit_low by (auto; destruct t; simpl; congruence).
    reflexivity.
  - rewrite tb_high by (auto; destruct t; simpl; congruence).
    destruct t; [congruence| | | | | | |];
    unfold canon_boards; cbn [fold_left seq Z.of_nat canon_row_step boards_at
      bd90 bd180 bd270 bdH bdV bdDiag bdAnti];
    rewrite ?Z.lor_spec, ?shl64_bit; unfold EMPTY_BOARD; rewrite Z.bits_0;
    destruct (Z.ltb_spec n 64); try lia; rewrite ?andb_false_r; reflexivity.
Qed.

Lemma canon_fold_fst (f : Transform -> Z) l acc :
  fst (fold_left (fun (acc : Z * Transform) i =>
         let t := Transform_of_nat i in
         if f t <? fst acc then (f t, t) else acc) l acc) =
  fold_left (fun m i => Z.min m (f (Transform_of_nat i))) l (fst acc).
Proof.
  revert acc. induction l as [|i l IH]; intros acc; [reflexivity|].
  simpl. rewrite IH. f_equal.
  destruct (Z.ltb_spec (f (Transform_of_nat i)) (fst acc)); simpl; lia.
Qed.

Lemma fold_min_map (f : nat -> Z) l x :
  fold_left (fun m i => Z.min m (f i)) l x = fold_left Z.min (map f l) x.
Proof. revert x. induction l; simpl; auto. Qed.

Lemma fold_min_spec l x :
  fold_left Z.min l x <= x /\ (forall y, In y l -> fold_left Z.min l x <= y) /\
  (fold_left Z.min l x = x \/ In (fold_left Z.min l x) l).
Proof.
  revert x. induction l as [|a l IH]; intros x; simpl.
  - split; [lia | split; [tauto | auto]].
  - destruct (IH (Z.min x a)) as [H1 [H2 H3]]. split; [lia|]. split.
    + intros y [<-|Hy]; [lia | auto].
    + destruct H3 as [H3|H3]; [|auto]. rewrite H3.
      destruct (Z.min_spec x a) as [[_ ->]|[_ ->]]; auto.
Qed.

Lemma fold_min_same l1 l2 x1 x2 :
  In x1 l1 -> In x2 l2 -> incl l1 l2 -> incl l2 l1 ->
  fold_left Z.min l1 x1 = fold_left Z.min l2 x2.
Proof.
  intros H1 H2 I12 I21.
  destruct (fold_min_spec l1 x1) as [A1 [B1 C1]].
  destruct (fold_min_spec l2 x2) as [A2 [B2 C2]].
  assert (M1 : In (fold_left Z.min l1 x1) l1) by (destruct C1 as [->|]; auto).
  assert (M2 : In (fold_left Z.min l2 x2) l2) by (destruct C2 as [->|]; auto).
  specialize (B1 _ (I21 _ M2)). specialize (B2 _ (I12 _ M1)). lia.
Qed.

Lemma getCanonicalBits_fst b :
  fst (getCanonicalBits b) =
  fold_left Z.min (map (fun t => transformBoard b (canon_label t)) all_transforms) b.
Proof.
  unfold getCanonicalBits. rewrite (canon_fold_fst (boards_at (canon_boards b))).
  rewrite fold_min_map. simpl fst. f_equal.
  change all_transforms with (map Transform_of_nat (seq 0 8)).
  rewrite map_map. apply map_ext. intros. apply canon_image.
Qed.

Lemma canon_label_invol t : canon_label (canon_label t) = t.
Proof. destruct t; reflexivity. Qed.

Lemma playable_inv_on_grid b : playable_inv b = true -> on_grid b.
Proof.
  intros Hb n Hn. apply Z.eqb_eq in Hb.
  rewrite <- Hb, Z.land_spec in Hn. apply andb_prop in Hn as [_ Hn].
  assert (Hf : forallb (fun n => negb (Z.testbit FULL_BOARD n) || in_grid n)
                 (map Z.of_nat (seq 0 64)) = true) by (vm_compute; reflexivity).
  destruct (Z.ltb_spec n 0); [rewrite Z.testbit_neg_r in Hn by lia; discriminate|].
  destruct (Z.ltb_spec n 64).
  - rewrite forallb_forall in Hf. specialize (Hf n (Z_cases_64 n ltac:(lia))).
    rewrite Hn in Hf. exact Hf.
  - rewrite bound64_high in Hn by (unfold FULL_BOARD; lia). discriminate.
Qed.

(** C8: for every board [b] satisfying the playable invariant and every
    transform [t], the board component of [getCanonicalBits] is the same for
    [transformBoard b t] and for [b]. *)
Theorem C8_canonical_transform_invariant b t :
  playable_inv b = true ->
  fst (getCanonicalBits (transformBoard b t)) = fst (getCanonicalBits b).
Proof.
  intros Hp. pose proof (playable_inv_on_grid b Hp) as Hb.
  rewrite !getCanonicalBits_fst.
  apply fold_min_same.
  - apply in_map_iff. exists DEGREE_0. split; [reflexivity | apply all_transforms_In].
  - apply in_map_iff. exists DEGREE_0. split; [reflexivity | apply all_transforms_In].
  - intros y Hy. apply in_map_iff in Hy as [u [<- _]].
    rewrite transformBoard_compose by exact Hb.
    apply in_map_iff. exists (canon_label (tcompose t (canon_label u))).
    rewrite canon_label_invol. split; [reflexivity | apply all_transforms_In].
  - intros y Hy. apply in_map_iff in Hy as [v [<- _]].
    destruct (tcompose_surj t (canon_label v)) as [u Hu].
    apply in_map_iff. exists (canon_label u).
    rewrite transformBoard_compose, canon_label_invol, Hu by exact Hb.
    split; [reflexivity | apply all_transforms_In].
Qed.

Lemma C8_canonical_transform_invariant_witness :
  playable_inv DEFAULT_BOARD = true /\
  fst (getCanonicalBits (transformBoard DEFAULT_BOARD DEGREE_90)) =
  fst (getCanonicalBits DEFAULT_BOARD).
Proof.
  split; [vm_compute; reflexivity|].
  apply C8_canonical_transform_invariant. vm_compute. reflexivity.
Defined.

(* ---- *)
Lemma tb_bit_any b t n :
  t <> DEGREE_0 ->
  Z.testbit (transformBoard b t) n = in_grid n && Z.testbit b (srcbit t n).
Proof.
  intros Ht. destruct (Z.ltb_spec n 0).
  - rewrite Z.testbit_neg_r by lia. unfold in_grid.
    destruct (Z.leb_spec 15 n); [lia | reflexivity].
  - destruct (Z.ltb_spec n 64).
    + apply tb_bit_low; [exact Ht | lia].
    + rewrite tb_high by (auto; lia). unfold in_grid.
      destruct (Z.leb_spec n 63); [lia | rewrite andb_false_r; reflexivity].
Qed.

Lemma in_grid_srcbit t n : in_grid n = true -> in_grid (srcbit t n) = true.
Proof. intros H. exact (proj1 (tcompose_spec DEGREE_0 t n H)). Qed.

Lemma in_grid_range n : in_grid n = true -> 15 <= n <= 63.
Proof. unfold in_grid. intros H. apply andb_prop in H as [H1 H2]. lia. Qed.

Lemma transformBoard_land x y t :
  transformBoard (Z.land x y) t = Z.land (transformBoard x t) (transformBoard y t).
Proof.
  destruct (decide (t = DEGREE_0)) as [->|Ht]; [reflexivity|].
  apply Z.bits_inj'. intros n _. rewrite Z.land_spec, !tb_bit_any, Z.land_spec by exact Ht.
  destruct (in_grid n); reflexivity.
Qed.

Lemma transformBoard_lor x y t :
  transformBoard (Z.lor x y) t = Z.lor (transformBoard x t) (transformBoard y t).
Proof.
  destruct (decide (t = DEGREE_0)) as [->|Ht]; [reflexivity|].
  apply Z.bits_inj'. intros n _. rewrite Z.lor_spec, !tb_bit_any, Z.lor_spec by exact Ht.
  destruct (in_grid n); reflexivity.
Qed.

Lemma transformBoard_land_lnot x y t :
  transformBoard (Z.land (lnot64 x) y) t =
  Z.land (lnot64 (transformBoard x t)) (transformBoard y t).
Proof.
  destruct (decide (t = DEGREE_0)) as [->|Ht]; [reflexivity|].
  apply Z.bits_inj'. intros n Hn. unfold lnot64.
  rewrite Z.land_spec, Z.lxor_spec, !tb_bit_any by exact Ht.
  rewrite !Z.land_spec, !Z.lxor_spec.
  destruct (in_grid n) eqn:G; [|simpl; rewrite !andb_false_r; reflexivity].
  pose proof (in_grid_range _ (in_grid_srcbit t n G)).
  pose proof (in_grid_range _ G).
  rewrite !mask64_bit by lia.
  destruct (Z.ltb_spec (srcbit t n) 64), (Z.ltb_spec n 64); try lia. reflexivity.
Qed.

Lemma transformBoard_D0 b : transformBoard b DEGREE_0 = b.
Proof. reflexivity. Qed.

Lemma tcompose_inverse_table :
  forallb (fun t => bool_decide (tcompose t (inverseTransform t) = DEGREE_0)) all_transforms = true.
Proof. vm_compute. reflexivity. Qed.

Lemma transformBoard_inverse b t :
  on_grid b -> transformBoard (transformBoard b t) (inverseTransform t) = b.
Proof.
  intros Hb. rewrite transformBoard_compose by exact Hb.
  pose proof tcompose_inverse_table as H. rewrite forallb_forall in H.
  specialize (H t (all_transforms_In t)). apply bool_decide_eq_true in H.
  rewrite H. reflexivity.
Qed.

Lemma transformBoard_inj x y t :
  on_grid x -> on_grid y -> transformBoard x t = transformBoard y t -> x = y.
Proof.
  intros Hx Hy E. rewrite <- (transformBoard_inverse x t Hx), <- (transformBoard_inverse y t Hy), E.
  reflexivity.
Qed.

Lemma on_grid_land_r x y : on_grid y -> on_grid (Z.land x y).
Proof. intros Hy n Hn. rewrite Z.land_spec in Hn. apply andb_prop in Hn as [_ Hn]. auto. Qed.

Lemma tb_eqb x y t :
  on_grid x -> on_grid y -> (transformBoard x t =? transformBoard y t) = (x =? y).
Proof.
  intros Hx Hy. destruct (Z.eqb_spec x y) as [->|Hne]; [apply Z.eqb_refl|].
  apply Z.eqb_neq. intros E. apply Hne. exact (transformBoard_inj x y t Hx Hy E).
Qed.

Lemma move_ok_transform b m t :
  on_grid (setBit m) -> on_grid (clearBits m) ->
  move_ok (transformBoard b t) (moveT t m) = move_ok b m.
Proof.
  intros Hs Hc. unfold move_ok, moveT; simpl.
  rewrite <- transformBoard_land, <- transformBoard_land_lnot.
  rewrite !tb_eqb by (auto using on_grid_land_r). reflexivity.
Qed.

Lemma applyMove_transform b m t :
  transformBoard (applyMove b m) t = applyMove (transformBoard b t) (moveT t m).
Proof.
  unfold applyMove, moveT; simpl.
  rewrite (Z.land_comm (Z.lor b _)), transformBoard_land_lnot, transformBoard_lor.
  apply Z.land_comm.
Qed.

Lemma zsum_app f l1 l2 : zsum f (l1 ++ l2) = zsum f l1 + zsum f l2.
Proof. induction l1; unfold zsum in *; simpl; lia. Qed.

Lemma zsum_ext f g l : (forall n, In n l -> f n = g n) -> zsum f l = zsum g l.
Proof.
  induction l as [|a l IH]; intros H; [reflexivity|]. unfold zsum in *; simpl.
  f_equal; [apply H; left; reflexivity | apply IH; intros; apply H; right; assumption].
Qed.

Lemma zsum_zero f l : (forall n, In n l -> f n = 0) -> zsum f l = 0.
Proof. intros H. rewrite (zsum_ext f (fun _ => 0)) by exact H. clear H. induction l; unfold zsum in *; simpl; lia. Qed.

Lemma zsum_plus f g h l :
  (forall n, In n l -> f n = g n + h n) -> zsum f l = zsum g l + zsum h l.
Proof.
  induction l as [|a l IH]; intros H; [reflexivity|]. unfold zsum in *; simpl.
  rewrite (H a (or_introl eq_refl)), IH by (intros; apply H; right; assumption). lia.
Qed.

Lemma zsum_perm f l1 l2 : Permutation l1 l2 -> zsum f l1 = zsum f l2.
Proof. induction 1; unfold zsum in *; simpl; lia. Qed.

Lemma zsum_map f g l : zsum f (map g l) = zsum (fun n => f (g n)) l.
Proof. induction l; unfold zsum in *; simpl; congruence. Qed.

Lemma popcount64_zsum x : popcount64 x = zsum (fun n => Z.b2z (Z.testbit x n)) bit_range.
Proof. reflexivity. Qed.

Lemma bit_range_split : bit_range = map Z.of_nat (seq 0 15) ++ grid_bits.
Proof. reflexivity. Qed.

Lemma popcount64_grid x :
  on_grid x -> popcount64 x = zsum (fun n => Z.b2z (Z.testbit x n)) grid_bits.
Proof.
  intros Hx. rewrite popcount64_zsum, bit_range_split, zsum_app, zsum_zero; [lia|].
  intros n Hn. apply in_map_iff in Hn as [k [<- Hk]]. apply in_seq in Hk.
  destruct (Z.testbit x (Z.of_nat k)) eqn:E; [|reflexivity].
  apply Hx, in_grid_range in E. lia.
Qed.

Lemma grid_bits_in_grid n : In n grid_bits -> in_grid n = true.
Proof.
  unfold grid_bits, in_grid. intros H. apply in_map_iff in H as [k [<- Hk]].
  apply in_seq in Hk. apply andb_true_intro. split; apply Z.leb_le; lia.
Qed.

Lemma srcbit_perm t : Permutation (map (srcbit t) grid_bits) grid_bits.
Proof.
  assert (H : forallb (fun t => bool_decide (map (srcbit t) grid_bits ≡ₚ grid_bits))
                all_transforms = true) by (vm_compute; reflexivity).
  rewrite forallb_forall in H. specialize (H t (all_transforms_In t)).
  apply bool_decide_eq_true in H. exact H.
Qed.

Lemma popcount64_transform b t :
  on_grid b -> popcount64 (transformBoard b t) = popcount64 b.
Proof.
  intros Hb. destruct (decide (t = DEGREE_0)) as [->|Ht]; [reflexivity|].
  rewrite !popcount64_grid by auto using on_grid_transform.
  rewrite <- (zsum_perm (fun n => Z.b2z (Z.testbit b n)) _ _ (srcbit_perm t)), zsum_map.
  apply zsum_ext. intros n Hn. rewrite tb_bit_any, grid_bits_in_grid by auto.
  reflexivity.
Qed.

Lemma hasWon_transform b t : on_grid b -> hasWon (transformBoard b t) = hasWon b.
Proof. intros Hb. unfold hasWon. rewrite popcount64_transform by exact Hb. reflexivity. Qed.

Lemma popcount64_applyMove b m :
  move_ok b m = true ->
  popcount64 (applyMove b m) = popcount64 b + popcount64 (setBit m) - popcount64 (clearBits m).
Proof.
  unfold move_ok. intros H. apply andb_prop in H as [Hc Hs].
  apply Z.eqb_eq in Hc, Hs.
  rewrite !popcount64_zsum.
  enough (E : zsum (fun n => Z.b2z (Z.testbit (applyMove b m) n) + Z.b2z (Z.testbit (clearBits m) n)) bit_range
          = zsum (fun n => Z.b2z (Z.testbit b n)) bit_range + zsum (fun n => Z.b2z (Z.testbit (setBit m) n)) bit_range).
  { rewrite (zsum_plus _ (fun n => Z.b2z (Z.testbit (applyMove b m) n)) (fun n => Z.b2z (Z.testbit (clearBits m) n))) in E by reflexivity. lia. }
  apply zsum_plus.
  intros n Hn. apply in_map_iff in Hn as [k [<- Hk]]. apply in_seq in Hk.
  assert (Cn := f_equal (fun z => Z.testbit z (Z.of_nat k)) Hc).
  assert (Sn := f_equal (fun z => Z.testbit z (Z.of_nat k)) Hs). simpl in Cn, Sn.
  unfold applyMove, lnot64 in *.
  rewrite !Z.land_spec, !Z.lxor_spec, !Z.lor_spec, mask64_bit in * by lia.
  destruct (Z.ltb_spec (Z.of_nat k) 64); [|lia].
  destruct (Z.testbit b (Z.of_nat k)), (Z.testbit (setBit m) (Z.of_nat k)),
           (Z.testbit (clearBits m) (Z.of_nat k)); simpl in *; try discriminate; reflexivity.
Qed.

Lemma shiftr_bit x k j :
  0 <= k -> Z.testbit (Z.shiftr x k) j = (0 <=? j) && Z.testbit x (j + k).
Proof.
  intros Hk. destruct (Z.leb_spec 0 j).
  - rewrite Z.shiftr_spec by lia. reflexivity.
  - rewrite Z.testbit_neg_r by lia. reflexivity.
Qed.

Lemma boardToBits_key b n :
  In n playable_bits -> Z.testbit (boardToBits b) (key_of n) = Z.testbit b n.
Proof.
  intros H. vm_compute in H.
  unfold boardToBits, EMPTY_BOARD; cbv zeta.
  rewrite !Z.lor_spec, !shl64_bit, !Z.land_spec, !shiftr_bit, Z.bits_0 by lia.
  generalize (Z.testbit b) as f. intros f.
  repeat (destruct H as [<-|H];
    [vm_compute; repeat match goal with |- context [f ?k] => destruct (f k) end; reflexivity|]).
  destruct H.
Qed.

Lemma playable_inv_bits b :
  playable_inv b = true <-> (forall n, Z.testbit b n = true -> Z.testbit FULL_BOARD n = true).
Proof.
  unfold playable_inv. rewrite Z.eqb_eq. split.
  - intros E n Hn. rewrite <- E, Z.land_spec in Hn. apply andb_prop in Hn. tauto.
  - intros H. apply Z.bits_inj'. intros n _. rewrite Z.land_spec.
    destruct (Z.testbit b n) eqn:E; [rewrite (H n E)|]; reflexivity.
Qed.

Lemma FULL_BOARD_bit_range n : Z.testbit FULL_BOARD n = true -> In n playable_bits.
Proof.
  intros H. unfold playable_bits. apply filter_In. split; [|exact H].
  destruct (Z.ltb_spec n 0); [rewrite Z.testbit_neg_r in H by lia; discriminate|].
  destruct (Z.ltb_spec n 64); [apply Z_cases_64; lia|].
  rewrite bound64_high in H by (unfold FULL_BOARD; lia). discriminate.
Qed.

Lemma boardToBits_inj b1 b2 :
  playable_inv b1 = true -> playable_inv b2 = true ->
  boardToBits b1 = boardToBits b2 -> b1 = b2.
Proof.
  rewrite !playable_inv_bits. intros H1 H2 E. apply Z.bits_inj'. intros n _.
  destruct (Z.testbit FULL_BOARD n) eqn:F.
  - apply FULL_BOARD_bit_range in F.
    rewrite <- !(boardToBits_key _ n F), E. reflexivity.
  - destruct (Z.testbit b1 n) eqn:E1; [rewrite (H1 n E1) in F; discriminate|].
    destruct (Z.testbit b2 n) eqn:E2; [rewrite (H2 n E2) in F; discriminate|].
    reflexivity.
Qed.

(* ---- the move table ---- *)
Lemma ALL_MOVES_table :
  forallb (fun m => playable_inv (setBit m) && playable_inv (clearBits m) &&
                    (popcount64 (setBit m) =? 1) && (popcount64 (clearBits m) =? 2) &&
                    forallb (fun t => mem_move (moveT t m) ALL_MOVES) all_transforms)
          ALL_MOVES = true.
Proof. vm_compute. reflexivity. Qed.

Lemma ALL_MOVES_facts m :
  In m ALL_MOVES ->
  playable_inv (setBit m) = true /\ playable_inv (clearBits m) = true /\
  popcount64 (setBit m) = 1 /\ popcount64 (clearBits m) = 2 /\
  (forall t, In (moveT t m) ALL_MOVES).
Proof.
  intros Hm. pose proof ALL_MOVES_table as H. rewrite forallb_forall in H.
  specialize (H m Hm). repeat (apply andb_prop in H as [H ?]).
  rewrite Z.eqb_eq in *. rewrite forallb_forall in *.
  repeat split; auto. intros t. apply mem_move_In. auto using all_transforms_In.
Qed.

Lemma FULL_BOARD_srcbit_table :
  forallb (fun t => forallb (fun n => Bool.eqb (Z.testbit FULL_BOARD (srcbit t n))
                                                (Z.testbit FULL_BOARD n)) grid_bits)
          all_transforms = true.
Proof. vm_compute. reflexivity. Qed.

Lemma playable_inv_transform b t :
  playable_inv b = true -> playable_inv (transformBoard b t) = true.
Proof.
  intros Hb. pose proof (playable_inv_on_grid b Hb) as G.
  rewrite playable_inv_bits in *. intros n Hn.
  rewrite tb_bit_grid in Hn by exact G. apply andb_prop in Hn as [Gn Hn].
  apply Hb in Hn.
  pose proof FULL_BOARD_srcbit_table as T. rewrite forallb_forall in T.
  specialize (T t (all_transforms_In t)). rewrite forallb_forall in T.
  assert (Hin : In n grid_bits).
  { apply in_grid_range in Gn. unfold grid_bits. apply in_map_iff.
    exists (Z.to_nat n). split; [lia | apply in_seq; lia]. }
  specialize (T n Hin). apply Bool.eqb_prop in T. congruence.
Qed.

Lemma playable_inv_applyMove b m :
  playable_inv b = true -> In m ALL_MOVES -> playable_inv (applyMove b m) = true.
Proof.
  intros Hb Hm. destruct (ALL_MOVES_facts m Hm) as [Hs _].
  rewrite playable_inv_bits in *. intros n Hn.
  unfold applyMove in Hn. rewrite Z.land_spec, Z.lor_spec in Hn.
  apply andb_prop in Hn as [Hn _]. apply orb_prop in Hn as [Hn|Hn]; auto.
Qed.

Lemma getCanonicalBits_image b : exists u, fst (getCanonicalBits b) = transformBoard b u.
Proof.
  rewrite getCanonicalBits_fst.
  destruct (fold_min_spec (map (fun t => transformBoard b (canon_label t)) all_transforms) b)
    as [_ [_ [H|H]]].
  - exists DEGREE_0. rewrite H. reflexivity.
  - apply in_map_iff in H as [t [H _]]. exists (canon_label t). congruence.
Qed.

Lemma plays_to_win_transform b ms t :
  playable_inv b = true -> Forall (fun m => In m ALL_MOVES) ms ->
  plays_to_win (transformBoard b t) (map (moveT t) ms) = plays_to_win b ms.
Proof.
  revert b. induction ms as [|m ms IH]; intros b Hb Hms; simpl.
  - apply hasWon_transform, playable_inv_on_grid, Hb.
  - inversion Hms as [|? ? Hm Hms']; subst.
    destruct (ALL_MOVES_facts m Hm) as [Hs [Hc _]].
    rewrite move_ok_transform by auto using playable_inv_on_grid.
    destruct (move_ok b m) eqn:Ok; [|reflexivity]. simpl.
    rewrite <- applyMove_transform. apply IH; auto using playable_inv_applyMove.
Qed.

Lemma reaches_won_transform b t :
  playable_inv b = true -> reaches_won b -> reaches_won (transformBoard b t).
Proof.
  intros Hb [ms [Hne [Hall Hp]]]. exists (map (moveT t) ms). split; [|split].
  - destruct ms; [congruence | discriminate].
  - apply Forall_map. eapply Forall_impl; [exact Hall|].
    intros m Hm. exact (proj2 (proj2 (proj2 (proj2 (ALL_MOVES_facts m Hm)))) t).
  - rewrite plays_to_win_transform; auto.
Qed.

Lemma reaches_won_transform_iff b t :
  playable_inv b = true -> reaches_won (transformBoard b t) <-> reaches_won b.
Proof.
  intros Hb. split; [|apply reaches_won_transform, Hb].
  intros H. rewrite <- (transformBoard_inverse b t) by (apply playable_inv_on_grid, Hb).
  apply reaches_won_transform; [apply playable_inv_transform, Hb | exact H].
Qed.

Lemma canonical_facts b :
  playable_inv b = true ->
  playable_inv (fst (getCanonicalBits b)) = true /\
  popcount64 (fst (getCanonicalBits b)) = popcount64 b /\
  hasWon (fst (getCanonicalBits b)) = hasWon b /\
  (reaches_won (fst (getCanonicalBits b)) <-> reaches_won b) /\
  exists u, fst (getCanonicalBits b) = transformBoard b u.
Proof.
  intros Hb. destruct (getCanonicalBits_image b) as [u Hu]. rewrite Hu.
  pose proof (playable_inv_on_grid b Hb) as G.
  split; [apply playable_inv_transform, Hb|].
  split; [apply popcount64_transform, G|].
  split; [apply hasWon_transform, G|].
  split; [apply reaches_won_transform_iff, Hb | eauto].
Qed.

Lemma sym_reach_playable B b :
  playable_inv B = true -> sym_reach B b -> playable_inv b = true.
Proof.
  intros HB. induction 1; auto using playable_inv_applyMove, playable_inv_transform.
Qed.

Lemma sym_reach_sound B b :
  playable_inv B = true -> sym_reach B b -> reaches_won b -> reaches_won B.
Proof.
  intros HB. induction 1 as [|b m Hr IH Hm Ok|b t Hr IH]; intros Hw.
  - exact Hw.
  - apply IH. destruct Hw as [ms [Hne [Hall Hp]]]. exists (m :: ms).
    split; [discriminate|]. split; [constructor; auto|]. simpl. rewrite Ok. exact Hp.
  - apply IH. apply (reaches_won_transform_iff b t); [|exact Hw].
    exact (sym_reach_playable B b HB Hr).
Qed.

Lemma popcount64_move b m :
  In m ALL_MOVES -> move_ok b m = true -> popcount64 (applyMove b m) = popcount64 b - 1.
Proof.
  intros Hm Ok. rewrite popcount64_applyMove by exact Ok.
  destruct (ALL_MOVES_facts m Hm) as [_ [_ [-> [-> _]]]]. lia.
Qed.

Lemma slice_sound B buf f j m :
  frame_ok B buf f -> (movesStart f <= j < moveEnd f)%nat -> nth_error buf j = Some m ->
  In m ALL_MOVES /\ move_ok (fr_board f) m = true.
Proof.
  intros [_ [_ [_ [He [pre [post [-> Hl]]]]]]] Hj Hn.
  rewrite nth_error_app2 in Hn by lia. rewrite nth_error_app1 in Hn by lia.
  apply nth_error_In in Hn. apply list_elem_of_In, list_elem_of_filter in Hn as [Ok Hin].
  split; [apply list_elem_of_In, Hin | exact Ok].
Qed.

Lemma slice_complete B buf f m :
  frame_ok B buf f -> In m ALL_MOVES -> move_ok (fr_board f) m = true ->
  exists j, (movesStart f <= j < moveEnd f)%nat /\ nth_error buf j = Some m.
Proof.
  intros [_ [_ [_ [He [pre [post [-> Hl]]]]]]] Hm Ok.
  assert (Hin : In m (frame_moves (fr_board f))).
  { apply list_elem_of_In, list_elem_of_filter. split; [exact Ok | apply list_elem_of_In, Hm]. }
  apply In_nth_error in Hin as [p Hp].
  pose proof (nth_error_Some (frame_moves (fr_board f)) p) as Hs.
  assert (p < length (frame_moves (fr_board f)))%nat by (apply Hs; congruence).
  exists (movesStart f + p)%nat. split; [lia|].
  rewrite nth_error_app2 by lia. rewrite nth_error_app1 by lia.
  replace (movesStart f + p - length pre)%nat with p by lia. exact Hp.
Qed.

Lemma frame_ok_app B buf extra f : frame_ok B buf f -> frame_ok B (buf ++ extra) f.
Proof.
  intros [H1 [H2 [H3 [H4 [pre [post [-> Hl]]]]]]].
  repeat split; auto; try lia. exists pre, (post ++ extra). split; [|exact Hl].
  rewrite <- !app_assoc. reflexivity.
Qed.

Lemma dfs_inv_init B : playable_inv B = true -> dfs_inv B (solve_init B).
Proof.
  intros HB. unfold solve_init.
  destruct (getCanonicalBits B) as [c tr] eqn:E.
  destruct (canonical_facts B HB) as [Hc [_ [_ [_ [u Hu]]]]]. rewrite E in Hc, Hu. simpl in Hc, Hu.
  constructor; simpl.
  - constructor; [|constructor]. repeat split; simpl; try lia.
    + exact Hc.
    + rewrite Hu. apply sr_transform, sr_start.
    + exists [], []. rewrite app_nil_r. split; reflexivity.
  - intros i f j m Hf Hj. destruct i as [|[|i]]; simpl in Hf; try discriminate.
    injection Hf as <-. simpl in Hj. lia.
  - intros k Hk. set_solver.
  - constructor; constructor.
  - split; [discriminate|]. intros fs' root Hr.
    destruct fs' as [|? [|? ?]]; simpl in Hr; injection Hr as <-; try discriminate.
    rewrite E. reflexivity.
Qed.

Lemma frame_end_le B buf f : frame_ok B buf f -> (moveEnd f <= length buf)%nat.
Proof.
  intros [_ [_ [_ [He [pre [post [-> Hl]]]]]]]. rewrite !length_app. lia.
Qed.

Lemma successor_facts B buf f j m :
  frame_ok B buf f -> (movesStart f <= j < moveEnd f)%nat -> nth_error buf j = Some m ->
  In m ALL_MOVES /\ move_ok (fr_board f) m = true /\
  playable_inv (applyMove (fr_board f) m) = true /\
  popcount64 (applyMove (fr_board f) m) = popcount64 (fr_board f) - 1.
Proof.
  intros Hf Hj Hn. destruct (slice_sound B buf f j m Hf Hj Hn) as [Hm Ok].
  split; [exact Hm|]. split; [exact Ok|]. split.
  - apply playable_inv_applyMove; [apply Hf | exact Hm].
  - apply popcount64_move; assumption.
Qed.

Lemma dead_canonical s c :
  playable_inv s = true -> fst (getCanonicalBits s) = c -> ~ reaches_won c -> ~ reaches_won s.
Proof.
  intros Ps <- D H. apply D. apply (canonical_facts s Ps). exact H.
Qed.

Lemma inv_pop B top rest buf K :
  playable_inv B = true -> dfs_inv B (mkDFS (top :: rest) buf K) -> (moveEnd top <= moveIndex top)%nat ->
  dfs_inv B (mkDFS rest buf K).
Proof.
  intros HB [Hfr Hcons Hseen Hsort Hroot] Hend; simpl in *.
  inversion Hfr as [|? ? Ftop Frest]; subst.
  assert (Dtop : ~ reaches_won (fr_board top)).
  { intros [ms [Hne [Hall Hp]]]. destruct ms as [|m ms]; [congruence|].
    inversion Hall as [|? ? Hm Hall']; subst. simpl in Hp.
    apply andb_prop in Hp as [Ok Hp].
    destruct (slice_complete _ _ _ m Ftop Hm Ok) as [j [Hj Hn]].
    destruct (Hcons 0%nat top j m eq_refl ltac:(lia) Hn) as [Hw [Hd|[i' [g [Hi _]]]]]; [|lia].
    destruct ms as [|m' ms']; [simpl in Hp; congruence|].
    apply Hd. exists (m' :: ms'). split; [discriminate | split; assumption]. }
  constructor; simpl.
  - exact Frest.
  - intros i f j m Hf Hj Hn.
    destruct (Hcons (S i) f j m Hf Hj Hn) as [Hw [Hd|[i' [g [Hi [Hg Hc]]]]]].
    + split; [exact Hw | left; exact Hd].
    + split; [exact Hw|]. destruct i' as [|i'].
      * left. simpl in Hg. injection Hg as <-.
        assert (Ff : frame_ok B buf f).
        { rewrite List.Forall_forall in Frest. apply Frest. eapply nth_error_In. exact Hf. }
        destruct (successor_facts B buf f j m Ff ltac:(destruct Ff as [_ [_ [? _]]]; lia) Hn)
          as [_ [_ [Ps _]]].
        exact (dead_canonical _ _ Ps Hc Dtop).
      * right. exists i', g. split; [lia | split; assumption].
  - intros k Hk. destruct (Hseen k Hk) as [d [Pd [Kd [Wd [Dd|[g [Hg Hgd]]]]]]].
    + exists d. repeat split; auto.
    + exists d. repeat split; auto. destruct Hg as [<-|Hg].
      * left. rewrite <- Hgd. exact Dtop.
      * right. exists g. auto.
  - inversion Hsort; assumption.
  - destruct Hroot as [_ Hr]. split.
    + intros ->. specialize (Hr [] top eq_refl).
      intros HW. apply Dtop. rewrite Hr. apply (canonical_facts B HB). exact HW.
    + intros fs' root ->. exact (Hr (top :: fs') root eq_refl).
Qed.

Lemma frame_ok_bump B buf f :
  frame_ok B buf f -> (moveIndex f < moveEnd f)%nat -> frame_ok B buf (bump f).
Proof.
  intros [H1 [H2 [H3 [H4 H5]]]] Hlt. unfold bump, frame_ok; simpl.
  repeat split; auto; lia.
Qed.

Lemma root_ok_bump B top rest :
  root_ok B (top :: rest) ->
  forall fs' root, bump top :: rest = fs' ++ [root] -> fr_board root = fst (getCanonicalBits B).
Proof.
  intros [_ Hr] fs' root Heq. destruct fs' as [|x fs']; simpl in Heq; injection Heq.
  - intros -> <-. exact (Hr [] top eq_refl).
  - intros Heq' <-. subst rest. exact (Hr (top :: fs') root eq_refl).
Qed.

Lemma sorted_bump top rest :
  StronglySorted pc_lt (top :: rest) -> StronglySorted pc_lt (bump top :: rest).
Proof. intros H. inversion H; subst. constructor; assumption. Qed.

Lemma inv_hit B top rest buf K m c :
  playable_inv B = true ->
  dfs_inv B (mkDFS (top :: rest) buf K) -> (moveIndex top < moveEnd top)%nat ->
  nth_error buf (moveIndex top) = Some m ->
  fst (getCanonicalBits (applyMove (fr_board top) m)) = c ->
  boardToBits c ∈ K ->
  dfs_inv B (mkDFS (bump top :: rest) buf K).
Proof.
  intros HB [Hfr Hcons Hseen Hsort Hroot] Hlt Hm Hc Hk; cbn [dfs moves seen] in *.
  subst c. inversion Hfr as [|? ? Ftop Frest]; subst.
  destruct (successor_facts B buf top (moveIndex top) m Ftop
              ltac:(destruct Ftop as [_ [_ [? _]]]; lia) Hm) as [HmA [Ok [Ps Pcs]]].
  destruct (canonical_facts _ Ps) as [Pc [PCc [Wc [Rc _]]]].
  destruct (Hseen _ Hk) as [d [Pd [Kd [Wd Dd]]]].
  apply boardToBits_inj in Kd; [|exact Pd|exact Pc]. subst d.
  assert (Ds : hasWon (applyMove (fr_board top) m) = false /\
               ~ reaches_won (applyMove (fr_board top) m)).
  { split; [congruence|]. destruct Dd as [Dd|[g [Hg Hgd]]].
    - intros H. apply Dd, Rc, H.
    - exfalso. destruct Hg as [<-|Hg]; [rewrite <- Hgd in PCc; lia|].
      inversion Hsort as [|? ? _ Hall]; subst. rewrite List.Forall_forall in Hall.
      specialize (Hall g Hg). unfold pc_lt in Hall. rewrite Hgd in Hall. lia. }
  constructor; cbn [dfs moves seen].
  - constructor; [apply frame_ok_bump; assumption | exact Frest].
  - intros i f j m' Hf Hj Hn. destruct i as [|i].
    + cbn [nth_error] in Hf. injection Hf as <-. cbn [bump moveIndex movesStart] in Hj.
      destruct (Nat.eq_dec j (moveIndex top)) as [->|Hne].
      * rewrite Hm in Hn. injection Hn as <-. split; [apply Ds | left; apply Ds].
      * destruct (Hcons 0%nat top j m' eq_refl ltac:(lia) Hn) as [Hw [Hd|[i' [g [Hi _]]]]];
          [|lia].
        split; [exact Hw | left; exact Hd].
    + destruct (Hcons (S i) f j m' Hf Hj Hn) as [Hw [Hd|[i' [g [Hi [Hg Hcg]]]]]].
      * split; auto.
      * split; [exact Hw|]. right. destruct i' as [|i'].
        -- cbn [nth_error] in Hg. injection Hg as <-. exists 0%nat, (bump top).
           split; [lia | split; [reflexivity | exact Hcg]].
        -- exists (S i'), g. auto.
  - intros k Hk'. destruct (Hseen k Hk') as [d' [Pd' [Kd' [Wd' [Dd'|[g [Hg Hgd]]]]]]];
      exists d'; repeat split; auto.
    right. destruct Hg as [<-|Hg]; [exists (bump top); split; [left; reflexivity | exact Hgd]|].
    exists g. split; [right; exact Hg | exact Hgd].
  - apply sorted_bump, Hsort.
  - split; [discriminate | apply root_ok_bump, Hroot].
Qed.

Lemma validMoves_eq b buf : validMoves b buf = buf ++ frame_moves b.
Proof. reflexivity. Qed.

Lemma inv_push (B : Z) (top : StackFrame) (rest : list StackFrame) (buf : list Move)
  (K : Seen) (m : Move) (c : Z) (tr : list Transform) :
  playable_inv B = true ->
  dfs_inv B (mkDFS (top :: rest) buf K) -> (moveIndex top < moveEnd top)%nat ->
  nth_error buf (moveIndex top) = Some m ->
  fst (getCanonicalBits (applyMove (fr_board top) m)) = c ->
  boardToBits c ∉ K -> hasWon (applyMove (fr_board top) m) = false ->
  dfs_inv B (mkDFS (mkFrame c (length buf) (length (validMoves c buf)) (length buf) tr (Some m)
                      :: bump top :: rest)
                   (validMoves c buf) ({[boardToBits c]} ∪ K)).
Proof.
  intros HB [Hfr Hcons Hseen Hsort Hroot] Hlt Hm Hc Hk Hw; cbn [dfs moves seen] in *.
  pose proof (Forall_inv Hfr) as Ftop. pose proof (Forall_inv_tail Hfr) as Frest.
  destruct (successor_facts B buf top (moveIndex top) m Ftop
              ltac:(destruct Ftop as [_ [_ [? _]]]; lia) Hm) as [HmA [Ok [Ps Pcs]]].
  destruct (canonical_facts _ Ps) as [Pc [PCc [Wc [Rc [u Hu]]]]].
  rewrite Hc in Pc, PCc, Wc, Hu.
  rewrite (validMoves_eq c buf).
  set (child := mkFrame c (length buf) (length (buf ++ frame_moves c)) (length buf) tr (Some m)).
  assert (Fchild : frame_ok B (buf ++ frame_moves c) child).
  { unfold frame_ok, child; cbn [fr_board moveIndex moveEnd movesStart].
    rewrite length_app. split; [exact Pc|]. split.
    - rewrite Hu. apply sr_transform, sr_move; [apply Ftop | exact HmA | exact Ok].
    - split; [lia|]. split; [lia|]. exists buf, []. rewrite app_nil_r. auto. }
  assert (Hend : forall f, In f (top :: rest) -> (moveEnd f <= length buf)%nat).
  { intros f Hf. rewrite List.Forall_forall in Hfr. apply (frame_end_le B), Hfr, Hf. }
  constructor; cbn [dfs moves seen].
  - constructor; [exact Fchild|]. constructor.
    + apply frame_ok_app, frame_ok_bump; assumption.
    + rewrite List.Forall_forall in *. intros f Hf. apply frame_ok_app, Frest, Hf.
  - intros i f j m' Hf Hj Hn. destruct i as [|[|i]].
    + cbn [nth_error] in Hf. injection Hf as <-. cbn [child moveIndex movesStart] in Hj. lia.
    + cbn [nth_error] in Hf. injection Hf as <-. cbn [bump moveIndex movesStart] in Hj.
      pose proof (Hend top (or_introl eq_refl)).
      rewrite nth_error_app1 in Hn by (destruct Ftop as [_ [_ [? _]]]; lia).
      destruct (Nat.eq_dec j (moveIndex top)) as [->|Hne].
      * rewrite Hm in Hn. injection Hn as <-. split; [exact Hw|]. right.
        exists 0%nat, child. split; [lia | split; [reflexivity | exact Hc]].
      * destruct (Hcons 0%nat top j m' eq_refl ltac:(lia) Hn) as [Hw' [Hd|[i' [g [Hi _]]]]];
          [|lia].
        split; [exact Hw' | left; exact Hd].
    + cbn [nth_error] in Hf.
      assert (Ff : frame_ok B buf f).
      { rewrite List.Forall_forall in Frest. apply Frest. eapply nth_error_In. exact Hf. }
      pose proof (frame_end_le B buf f Ff).
      rewrite nth_error_app1 in Hn by (destruct Ff as [_ [_ [? _]]]; lia).
      destruct (Hcons (S i) f j m' Hf Hj Hn) as [Hw' [Hd|[i' [g [Hi [Hg Hcg]]]]]].
      * split; auto.
      * split; [exact Hw'|]. right. destruct i' as [|i'].
        -- cbn [nth_error] in Hg. injection Hg as <-. exists 1%nat, (bump top).
           split; [lia | split; [reflexivity | exact Hcg]].
        -- exists (S (S i')), g. split; [lia | split; [exact Hg | exact Hcg]].
  - intros k Hk'. apply elem_of_union in Hk' as [Hk'|Hk'].
    + apply elem_of_singleton in Hk'. subst k. exists c.
      split; [exact Pc|]. split; [reflexivity|]. split; [congruence|].
      right. exists child. split; [left; reflexivity | reflexivity].
    + destruct (Hseen k Hk') as [d' [Pd' [Kd' [Wd' [Dd'|[g [Hg Hgd]]]]]]];
        exists d'; repeat split; auto.
      right. destruct Hg as [<-|Hg].
      * exists (bump top). split; [right; left; reflexivity | exact Hgd].
      * exists g. split; [right; right; exact Hg | exact Hgd].
  - constructor; [apply sorted_bump, Hsort|].
    inversion Hsort as [|? ? _ Hall]; subst.
    constructor.
    + unfold pc_lt. cbn [child bump fr_board]. lia.
    + eapply Forall_impl; [exact Hall|]. intros g Hg. unfold pc_lt in *.
      cbn [child fr_board]. lia.
  - split; [discriminate|]. intros fs' root Heq.
    destruct fs' as [|x fs']; cbn [app] in Heq; injection Heq.
    + intros Hnil _. discriminate.
    + intros Heq' _. exact (root_ok_bump B top rest Hroot fs' root Heq').
Qed.

Lemma dfs_inv_step B st st' :
  playable_inv B = true -> dfs_inv B st -> dfs_step st = Continue st' -> dfs_inv B st'.
Proof.
  intros HB Hinv Hstep. destruct st as [fs buf K].
  unfold dfs_step in Hstep. cbn [dfs moves seen] in Hstep.
  destruct fs as [|top rest]; [discriminate|].
  destruct (Nat.leb_spec (moveEnd top) (moveIndex top)) as [Hle|Hlt].
  - injection Hstep as <-. exact (inv_pop B top rest buf K HB Hinv Hle).
  - destruct (nth_error buf (moveIndex top)) as [m|] eqn:Hm; [|discriminate].
    destruct (getCanonicalBits (applyMove (fr_board top) m)) as [c tr] eqn:Ec.
    assert (Hc : fst (getCanonicalBits (applyMove (fr_board top) m)) = c) by (rewrite Ec; reflexivity).
    unfold testAndSet in Hstep.
    destruct (decide (boardToBits c ∈ K)) as [Hk|Hk].
    + injection Hstep as <-. exact (inv_hit B top rest buf K m c HB Hinv Hlt Hm Hc Hk).
    + destruct (hasWon (applyMove (fr_board top) m)) eqn:Hw; [discriminate|].
      injection Hstep as <-.
      exact (inv_push B top rest buf K m c _ HB Hinv Hlt Hm Hc Hk Hw).
Qed.

Lemma getMoveOrder_nonempty f l m :
  incomingMove f = Some m -> getMoveOrder (f :: l) <> [].
Proof.
  intros Hf. unfold getMoveOrder. cbn [collect_moves]. rewrite Hf. cbn [map rev].
  intros H. apply app_eq_nil in H as [_ H]. discriminate H.
Qed.

Lemma dfs_step_return B st sol :
  playable_inv B = true -> dfs_inv B st -> dfs_step st = Return sol ->
  (sol = [] <-> ~ reaches_won B).
Proof.
  intros HB Hinv Hstep. destruct st as [fs buf K].
  unfold dfs_step in Hstep. cbn [dfs moves seen] in Hstep.
  destruct fs as [|top rest].
  - injection Hstep as <-. destruct Hinv as [_ _ _ _ [Hr _]].
    cbn [dfs] in Hr. specialize (Hr eq_refl). tauto.
  - destruct (Nat.leb_spec (moveEnd top) (moveIndex top)) as [Hle|Hlt]; [discriminate|].
    destruct (nth_error buf (moveIndex top)) as [m|] eqn:Hm; [|discriminate].
    destruct (getCanonicalBits (applyMove (fr_board top) m)) as [c tr] eqn:Ec.
    unfold testAndSet in Hstep.
    destruct (decide (boardToBits c ∈ K)) as [Hk|Hk]; [discriminate|].
    destruct (hasWon (applyMove (fr_board top) m)) eqn:Hw; [|discriminate].
    injection Hstep as <-.
    destruct Hinv as [Hfr _ _ _ _]. cbn [dfs moves] in Hfr.
    pose proof (Forall_inv Hfr) as Ftop.
    destruct (successor_facts B buf top (moveIndex top) m Ftop
                ltac:(destruct Ftop as [_ [_ [? _]]]; lia) Hm) as [HmA [Ok _]].
    assert (Hwin : reaches_won B).
    { apply (sym_reach_sound B (fr_board top) HB); [apply Ftop|].
      exists [m]. split; [discriminate|]. split; [constructor; auto|].
      cbn [plays_to_win]. rewrite Ok, Hw. reflexivity. }
    split; [intros H; exfalso; eapply getMoveOrder_nonempty; [|exact H]; reflexivity | tauto].
Qed.

Lemma runDFS_correct B fuel st res :
  playable_inv B = true -> dfs_inv B st -> runDFS fuel st = Some res ->
  (res = [] <-> ~ reaches_won B).
Proof.
  intros HB. revert st. induction fuel as [|fuel IH]; intros st Hinv Hrun; [discriminate|].
  cbn [runDFS] in Hrun. destruct (dfs_step st) as [st'|sol|] eqn:Hs; [| |discriminate].
  - exact (IH st' (dfs_inv_step B st st' HB Hinv Hs) Hrun).
  - injection Hrun as <-. exact (dfs_step_return B st sol HB Hinv Hs).
Qed.

(* ------------------------------------------------------------------ *)
(** ** Further properties of the board, the solver and the game *)


Lemma zrange_In x n : 0 <= x < Z.of_nat n -> In x (map Z.of_nat (seq 0 n)).
Proof. intros H. apply in_map_iff. exists (Z.to_nat x). split; [lia | apply in_seq; lia]. Qed.

Lemma reverse7_table :
  forallb (fun x => (reverse7 (reverse7 x) =? x) && (0 <=? reverse7 x) && (reverse7 x <? 128))
          (map Z.of_nat (seq 0 128)) = true.
Proof. vm_compute. reflexivity. Qed.

(** X1: For every 7-bit value x, reverse7 (the REVERSED table) returns a 7-bit value, and reversing twice gives x back. *)
Theorem reverse7_involutive x :
  0 <= x < 128 -> reverse7 (reverse7 x) = x /\ 0 <= reverse7 x < 128.
Proof.
  intros Hx. pose proof reverse7_table as T. rewrite forallb_forall in T.
  specialize (T x (zrange_In x 128 Hx)).
  apply andb_prop in T as [T H3]. apply andb_prop in T as [H1 H2].
  apply Z.eqb_eq in H1. apply Z.leb_le in H2. apply Z.ltb_lt in H3. lia.
Qed.

Lemma reverse7_involutive_witness :
  0 <= 5 < 128 /\ reverse7 (reverse7 5) = 5 /\ 0 <= reverse7 5 < 128.
Proof. split; [lia|]. apply reverse7_involutive. lia. Defined.

Lemma rowShift_range r : 0 <= r < 7 -> 0 <= rowShift r <= 57.
Proof. unfold rowShift, ROW_IDX, MAX_BOARD_IDX, NUM_COLS. lia. Qed.

Lemma small_bits x k n : 0 <= x < 2^k -> 0 <= k <= n -> Z.testbit x n = false.
Proof.
  intros Hx Hk. destruct (Z.eq_dec x 0) as [->|]; [apply Z.bits_0|].
  apply Z.bits_above_log2; [lia|].
  assert (Z.log2 x < k) by (apply Z.log2_lt_pow2; lia). lia.
Qed.

(** X2: For rows r and r' in 0..6 and an 8-bit rowBits, after insertRow(b, r, rowBits) row r reads back as the low 7 bits of rowBits and every row other than r and r-1 is unchanged. Row r-1 additionally receives bit 7 of rowBits in its column 6, so the MSB of rowBits is not ignored. *)
Theorem getRow_insertRow b r r' x :
  0 <= r < 7 -> 0 <= r' < 7 -> 0 <= x < 256 ->
  getRow (insertRow b r x) r' =
    if r' =? r then Z.land x 0x7F
    else if r' =? r - 1 then Z.lor (getRow b r') (Z.shiftr x 7)
    else getRow b r'.
Proof.
  intros Hr Hr' Hx. pose proof (rowShift_range r Hr) as Hs.
  pose proof (rowShift_range r' Hr') as Hs'.
  apply Z.bits_inj'. intros j Hj.
  assert (Hx8 : 0 <= x < 2^8) by (change (2^8) with 256; lia).
  rewrite getRow_bit.
  destruct (Z.ltb_spec j 7) as [Hj7|Hj7].
  - destruct (Z.leb_spec 0 j); try lia. simpl.
    rewrite insertRow_bit by lia.
    unfold rowShift, ROW_IDX, MAX_BOARD_IDX, NUM_COLS in *.
    destruct (Z.eqb_spec r' r) as [->|Hne].
    + rewrite Z.land_spec. change 0x7F with (Z.ones 7). rewrite Z.testbit_ones by lia.
      destruct (Z.leb_spec (63 - r * 7 - (7 - 1)) (j + (63 - r * 7 - (7 - 1)))); try lia.
      destruct (Z.ltb_spec (j + (63 - r * 7 - (7 - 1))) (63 - r * 7 - (7 - 1) + 7)); try lia.
      simpl. destruct (Z.leb_spec 0 j); try lia. destruct (Z.ltb_spec j 7); try lia.
      rewrite andb_true_r. f_equal. lia.
    + assert (Hout : (63 - r * 7 - (7 - 1) <=? j + (63 - r' * 7 - (7 - 1))) &&
                     (j + (63 - r' * 7 - (7 - 1)) <? 63 - r * 7 - (7 - 1) + 7) = false).
      { destruct (Z.leb_spec (63 - r * 7 - (7 - 1)) (j + (63 - r' * 7 - (7 - 1))));
        destruct (Z.ltb_spec (j + (63 - r' * 7 - (7 - 1))) (63 - r * 7 - (7 - 1) + 7));
        try reflexivity; nia. }
      rewrite Hout, shl64_bit.
      destruct (Z.leb_spec 0 (j + (63 - r' * 7 - (7 - 1)))); try lia.
      destruct (Z.ltb_spec (j + (63 - r' * 7 - (7 - 1))) 64); try lia. simpl.
      destruct (Z.eqb_spec r' (r - 1)) as [->|Hne2].
      * rewrite Z.lor_spec, getRow_bit, Z.shiftr_spec by lia.
        destruct (Z.leb_spec 0 j); try lia. destruct (Z.ltb_spec j 7); try lia. simpl.
        unfold rowShift, ROW_IDX, MAX_BOARD_IDX, NUM_COLS.
        destruct (Z.eqb_spec j 0) as [->|Hj0].
        -- replace (0 + (63 - (r - 1) * 7 - (7 - 1)) - (63 - r * 7 - (7 - 1))) with 7 by lia.
           replace (0 + 7) with 7 by lia. rewrite orb_comm. reflexivity.
        -- rewrite (small_bits x 8 (j + (63 - (r - 1) * 7 - (7 - 1)) - (63 - r * 7 - (7 - 1))))
             by lia.
           rewrite (small_bits x 8 (j + 7)) by lia.
           rewrite orb_false_r. reflexivity.
      * rewrite getRow_bit. destruct (Z.leb_spec 0 j); try lia. destruct (Z.ltb_spec j 7); try lia.
        simpl. unfold rowShift, ROW_IDX, MAX_BOARD_IDX, NUM_COLS.
        destruct (Z.ltb_spec (j + (63 - r' * 7 - (7 - 1)) - (63 - r * 7 - (7 - 1))) 0).
        -- rewrite Z.testbit_neg_r by lia. reflexivity.
        -- rewrite (small_bits x 8) by nia. reflexivity.
  - assert (E : (j <? 7) = false) by (apply Z.ltb_ge; lia).
    rewrite andb_false_r. simpl.
    destruct (Z.eqb_spec r' r).
    + rewrite Z.land_spec. change 0x7F with (Z.ones 7). rewrite Z.testbit_ones by lia.
      rewrite E, !andb_false_r. reflexivity.
    + destruct (Z.eqb_spec r' (r - 1)).
      * rewrite Z.lor_spec, getRow_bit, Z.shiftr_spec by lia.
        rewrite (small_bits x 8 (j + 7)) by lia. rewrite E, !andb_false_r. reflexivity.
      * rewrite getRow_bit, E, !andb_false_r. reflexivity.
Qed.

(** X3: For every board within FULL_BOARD and every transform t, transforming by t and then by inverseTransform(t) gives the board back. *)
Theorem transformBoard_inverseTransform b t :
  playable_inv b = true -> transformBoard (transformBoard b t) (inverseTransform t) = b.
Proof. intros Hb. apply transformBoard_inverse, playable_inv_on_grid, Hb. Qed.

Lemma transformBoard_inverseTransform_witness :
  playable_inv DEFAULT_BOARD = true /\
  transformBoard (transformBoard DEFAULT_BOARD DEGREE_90) (inverseTransform DEGREE_90) = DEFAULT_BOARD.
Proof. split; [vm_compute; reflexivity|]. apply transformBoard_inverseTransform. vm_compute. reflexivity. Defined.

(** X4: For every two transforms t and u there is one transform w such that, for every board within FULL_BOARD, transforming by t and then by u equals transforming by w. *)
Theorem transformBoard_closed t u :
  exists w, forall b, playable_inv b = true ->
    transformBoard (transformBoard b t) u = transformBoard b w.
Proof.
  exists (tcompose t u). intros b Hb. apply transformBoard_compose, playable_inv_on_grid, Hb.
Qed.

(** X5: For every board within FULL_BOARD and every transform, the transformed board stays within FULL_BOARD and keeps its marble count and its hasWon result. *)
Theorem transformBoard_preserves b t :
  playable_inv b = true ->
  playable_inv (transformBoard b t) = true /\
  popcount64 (transformBoard b t) = popcount64 b /\
  hasWon (transformBoard b t) = hasWon b.
Proof.
  intros Hb. pose proof (playable_inv_on_grid b Hb) as G.
  split; [apply playable_inv_transform, Hb|].
  split; [apply popcount64_transform, G | apply hasWon_transform, G].
Qed.

Lemma transformBoard_preserves_witness :
  playable_inv DEFAULT_BOARD = true /\
  playable_inv (transformBoard DEFAULT_BOARD FLIP_DIAG) = true /\
  popcount64 (transformBoard DEFAULT_BOARD FLIP_DIAG) = popcount64 DEFAULT_BOARD /\
  hasWon (transformBoard DEFAULT_BOARD FLIP_DIAG) = hasWon DEFAULT_BOARD.
Proof. split; [vm_compute; reflexivity|]. apply transformBoard_preserves. vm_compute. reflexivity. Defined.

(** X6: For every move m of ALL_MOVES and every transform t, the image of m under t (both masks transformed) is also in ALL_MOVES. It is legal on the transformed board exactly when m is legal on the board, and transformBoard commutes with applyMove. *)
Theorem transform_moves m t :
  In m ALL_MOVES ->
  In (moveT t m) ALL_MOVES /\
  (forall b, move_ok (transformBoard b t) (moveT t m) = move_ok b m) /\
  (forall b, transformBoard (applyMove b m) t = applyMove (transformBoard b t) (moveT t m)).
Proof.
  intros Hm. destruct (ALL_MOVES_facts m Hm) as [Hs [Hc [_ [_ Ht]]]].
  split; [apply Ht|]. split.
  - intros b. apply move_ok_transform; apply playable_inv_on_grid; assumption.
  - intros b. apply applyMove_transform.
Qed.

Lemma transform_moves_witness :
  In (jump_move 2 2 0 2) ALL_MOVES /\
  In (moveT DEGREE_90 (jump_move 2 2 0 2)) ALL_MOVES /\
  (forall b, move_ok (transformBoard b DEGREE_90) (moveT DEGREE_90 (jump_move 2 2 0 2)) =
             move_ok b (jump_move 2 2 0 2)) /\
  (forall b, transformBoard (applyMove b (jump_move 2 2 0 2)) DEGREE_90 =
             applyMove (transformBoard b DEGREE_90) (moveT DEGREE_90 (jump_move 2 2 0 2))).
Proof.
  assert (H : In (jump_move 2 2 0 2) ALL_MOVES)
    by (apply mem_move_In; vm_compute; reflexivity).
  split; [exact H|]. apply transform_moves. exact H.
Defined.

(** X7: For every move of ALL_MOVES and every transform t, undoTransform(t) applied to the image of the move under t returns the original move. *)
Theorem undoTransform_moveT m t :
  In m ALL_MOVES -> undoTransform (moveT t m) t = m.
Proof.
  intros Hm. destruct (ALL_MOVES_facts m Hm) as [Hs [Hc _]].
  destruct m as [s c]. unfold undoTransform, moveT; simpl in *.
  destruct (decide (t = DEGREE_0)) as [->|Ht].
  - rewrite !transformBoard_D0. reflexivity.
  - rewrite !transformBoard_inverse by (apply playable_inv_on_grid; assumption). reflexivity.
Qed.

Lemma undoTransform_moveT_witness :
  In (jump_move 2 2 0 2) ALL_MOVES /\
  undoTransform (moveT FLIP_ANTI (jump_move 2 2 0 2)) FLIP_ANTI = jump_move 2 2 0 2.
Proof.
  assert (H : In (jump_move 2 2 0 2) ALL_MOVES)
    by (apply mem_move_In; vm_compute; reflexivity).
  split; [exact H|]. apply undoTransform_moveT. exact H.
Defined.

Lemma canon_fold_pair (f : Transform -> Z) l acc :
  fst acc = f (snd acc) ->
  let r := fold_left (fun (acc : Z * Transform) i =>
             let t := Transform_of_nat i in
             if f t <? fst acc then (f t, t) else acc) l acc in
  fst r = f (snd r).
Proof.
  revert acc. induction l as [|i l IH]; intros acc H; simpl; [exact H|].
  apply IH. destruct (f (Transform_of_nat i) <? fst acc); simpl; auto.
Qed.

(** X8: For every board, the canonical board returned by getCanonicalBits is transformBoard of the board under canon_label of the returned transform. canon_label swaps DEGREE_90 and DEGREE_270 and keeps the other transforms. *)
Theorem getCanonicalBits_label b :
  fst (getCanonicalBits b) = transformBoard b (canon_label (snd (getCanonicalBits b))).
Proof.
  rewrite <- canon_image. unfold getCanonicalBits.
  apply (canon_fold_pair (boards_at (canon_boards b))). reflexivity.
Qed.

(** X9: For every board, the canonical board returned by getCanonicalBits is no larger than the board itself and no larger than each of its eight transformed images. *)
Theorem getCanonicalBits_least b :
  fst (getCanonicalBits b) <= b /\ forall t, fst (getCanonicalBits b) <= transformBoard b t.
Proof.
  rewrite getCanonicalBits_fst.
  destruct (fold_min_spec (map (fun t => transformBoard b (canon_label t)) all_transforms) b)
    as [H1 [H2 _]].
  split; [exact H1|]. intros t. apply H2. apply in_map_iff. exists (canon_label t).
  rewrite canon_label_invol. split; [reflexivity | apply all_transforms_In].
Qed.

Lemma canonical_transform_inv b t :
  playable_inv b = true ->
  fst (getCanonicalBits (transformBoard b t)) = fst (getCanonicalBits b).
Proof.
  intros Hp. pose proof (playable_inv_on_grid b Hp) as Hb.
  rewrite !getCanonicalBits_fst.
  apply fold_min_same.
  - apply in_map_iff. exists DEGREE_0. split; [reflexivity | apply all_transforms_In].
  - apply in_map_iff. exists DEGREE_0. split; [reflexivity | apply all_transforms_In].
  - intros y Hy. apply in_map_iff in Hy as [u [<- _]].
    rewrite transformBoard_compose by exact Hb.
    apply in_map_iff. exists (canon_label (tcompose t (canon_label u))).
    rewrite canon_label_invol. split; [reflexivity | apply all_transforms_In].
  - intros y Hy. apply in_map_iff in Hy as [v [<- _]].
    destruct (tcompose_surj t (canon_label v)) as [u Hu].
    apply in_map_iff. exists (canon_label u).
    rewrite transformBoard_compose, canon_label_invol, Hu by exact Hb.
    split; [reflexivity | apply all_transforms_In].
Qed.

(** X10: For every board within FULL_BOARD, canonicalising the canonical board again returns the same canonical board. *)
Theorem getCanonicalBits_idempotent b :
  playable_inv b = true ->
  fst (getCanonicalBits (fst (getCanonicalBits b))) = fst (getCanonicalBits b).
Proof.
  intros Hb. destruct (getCanonicalBits_image b) as [u Hu].
  rewrite Hu at 1. apply canonical_transform_inv, Hb.
Qed.

Lemma getCanonicalBits_idempotent_witness :
  playable_inv DEFAULT_BOARD = true /\
  fst (getCanonicalBits (fst (getCanonicalBits DEFAULT_BOARD))) =
  fst (getCanonicalBits DEFAULT_BOARD).
Proof. split; [vm_compute; reflexivity|]. apply getCanonicalBits_idempotent. vm_compute. reflexivity. Defined.

(** X11: For every 64-bit board, boardToBits returns a value in [0, 2^37). *)
Theorem boardToBits_range b : 0 <= boardToBits b < 2^37.
Proof.
  assert (E : boardToBits b = Z.land (boardToBits b) (Z.ones 37)).
  { apply Z.bits_inj'. intros n Hn0. rewrite Z.land_spec, Z.testbit_ones by lia.
    destruct (Z.ltb_spec n 37); [destruct (Z.leb_spec 0 n); try lia; rewrite !andb_true_r; reflexivity|].
    rewrite andb_false_r.
    unfold boardToBits, EMPTY_BOARD.
    rewrite !Z.lor_spec, !shl64_bit, !Z.land_spec, Z.bits_0.
    rewrite (small_bits 7 3 n), (small_bits 0x1F 5 (n - 3)), (small_bits 0x1FFFFF 21 (n - 8)),
            (small_bits 0x1F 5 (n - 29)), (small_bits 0x7 3 (n - 34)) by (cbn; lia).
    rewrite !andb_false_r. reflexivity. }
  rewrite E, Z.land_ones by lia. apply Z.mod_pos_bound. lia.
Qed.

(** X12: Two boards within FULL_BOARD with the same boardToBits key are equal. *)
Theorem boardToBits_injective b1 b2 :
  playable_inv b1 = true -> playable_inv b2 = true ->
  boardToBits b1 = boardToBits b2 -> b1 = b2.
Proof. apply boardToBits_inj. Qed.

Lemma boardToBits_injective_witness :
  playable_inv DEFAULT_BOARD = true /\ playable_inv DEFAULT_BOARD = true /\
  boardToBits DEFAULT_BOARD = boardToBits DEFAULT_BOARD /\ DEFAULT_BOARD = DEFAULT_BOARD.
Proof.
  assert (H : playable_inv DEFAULT_BOARD = true) by (vm_compute; reflexivity).
  split; [exact H|]. split; [exact H|]. split; [reflexivity|].
  apply boardToBits_injective; [exact H | exact H | reflexivity].
Defined.

(** X13: For boards b1 and b2 within FULL_BOARD and any set K of keys, after testAndSet(b1) the call testAndSet(b2) reports a hit exactly when b2 = b1 or the key of b2 was already in K. *)
Theorem testAndSet_after_insert (K : Seen) b1 b2 :
  playable_inv b1 = true -> playable_inv b2 = true ->
  fst (testAndSet (snd (testAndSet K b1)) b2) = true <-> b2 = b1 \/ boardToBits b2 ∈ K.
Proof.
  intros H1 H2.
  transitivity (boardToBits b2 ∈ snd (testAndSet K b1)).
  { unfold testAndSet at 1. destruct (decide _); simpl; split; intros; try discriminate; tauto. }
  assert (Hk : boardToBits b2 = boardToBits b1 <-> b2 = b1).
  { split; [apply boardToBits_inj; assumption | intros ->; reflexivity]. }
  unfold testAndSet. destruct (decide (boardToBits b1 ∈ K)) as [I1|I1]; simpl.
  - split; [tauto|]. intros [->|H]; assumption.
  - rewrite elem_of_union, elem_of_singleton. tauto.
Qed.

Lemma testAndSet_after_insert_witness :
  playable_inv DEFAULT_BOARD = true /\ playable_inv FULL_BOARD = true /\
  (fst (testAndSet (snd (testAndSet ∅ DEFAULT_BOARD)) FULL_BOARD) = true <->
   FULL_BOARD = DEFAULT_BOARD \/ boardToBits FULL_BOARD ∈ (∅ : Seen)).
Proof.
  assert (H1 : playable_inv DEFAULT_BOARD = true) by (vm_compute; reflexivity).
  assert (H2 : playable_inv FULL_BOARD = true) by (vm_compute; reflexivity).
  split; [exact H1|]. split; [exact H2|]. apply testAndSet_after_insert; assumption.
Defined.

(** X14: Applying a move of ALL_MOVES that is legal on a board within FULL_BOARD gives a board within FULL_BOARD with exactly one marble fewer. *)
Theorem applyMove_legal b m :
  playable_inv b = true -> In m ALL_MOVES -> move_ok b m = true ->
  playable_inv (applyMove b m) = true /\ popcount64 (applyMove b m) = popcount64 b - 1.
Proof.
  intros Hb Hm Ok. split; [apply playable_inv_applyMove; assumption|].
  apply popcount64_move; assumption.
Qed.

Lemma applyMove_legal_witness :
  playable_inv DEFAULT_BOARD = true /\ In (jump_move 2 2 0 2) ALL_MOVES /\
  move_ok DEFAULT_BOARD (jump_move 2 2 0 2) = true /\
  playable_inv (applyMove DEFAULT_BOARD (jump_move 2 2 0 2)) = true /\
  popcount64 (applyMove DEFAULT_BOARD (jump_move 2 2 0 2)) = popcount64 DEFAULT_BOARD - 1.
Proof.
  assert (H1 : playable_inv DEFAULT_BOARD = true) by (vm_compute; reflexivity).
  assert (H2 : In (jump_move 2 2 0 2) ALL_MOVES) by (apply mem_move_In; vm_compute; reflexivity).
  assert (H3 : move_ok DEFAULT_BOARD (jump_move 2 2 0 2) = true) by (vm_compute; reflexivity).
  split; [exact H1|]. split; [exact H2|]. split; [exact H3|].
  apply applyMove_legal; assumption.
Defined.

(** X15: For a 64-bit board b and a move whose clear bits fit in 64 bits, if b has the set bit of the move and none of its clear bits, then applyMove(undoMove(b, m), m) = b. *)
Theorem applyMove_undoMove b m :
  0 <= b < 2^64 -> 0 <= clearBits m < 2^64 ->
  Z.land b (setBit m) = setBit m ->
  Z.land b (clearBits m) = 0 ->
  applyMove (undoMove b m) m = b.
Proof.
  intros Hb Hc64 Hs Hc. destruct m as [s c]; simpl in *.
  rewrite land_eq_bits in Hs. rewrite land_zero_bits in Hc.
  unfold undoMove, applyMove, lnot64; simpl.
  apply Z.bits_inj'. intros n Hn.
  rewrite !Z.land_spec, !Z.lor_spec, !Z.land_spec, !Z.lxor_spec, !mask64_bit by lia.
  specialize (Hs n Hn). specialize (Hc n Hn).
  destruct (Z.ltb_spec n 64).
  - destruct (Z.testbit b n), (Z.testbit s n), (Z.testbit c n); simpl in *;
      try reflexivity; try discriminate; specialize (Hs eq_refl); discriminate.
  - rewrite (bound64_high b n Hb), (bound64_high c n Hc64) in * by lia.
    destruct (Z.testbit s n); reflexivity.
Qed.

Lemma applyMove_undoMove_witness :
  0 <= applyMove DEFAULT_BOARD (jump_move 2 2 0 2) < 2^64 /\
  0 <= clearBits (jump_move 2 2 0 2) < 2^64 /\
  Z.land (applyMove DEFAULT_BOARD (jump_move 2 2 0 2)) (setBit (jump_move 2 2 0 2)) =
    setBit (jump_move 2 2 0 2) /\
  Z.land (applyMove DEFAULT_BOARD (jump_move 2 2 0 2)) (clearBits (jump_move 2 2 0 2)) = 0 /\
  applyMove (undoMove (applyMove DEFAULT_BOARD (jump_move 2 2 0 2)) (jump_move 2 2 0 2))
    (jump_move 2 2 0 2) = applyMove DEFAULT_BOARD (jump_move 2 2 0 2).
Proof.
  assert (H1 : 0 <= applyMove DEFAULT_BOARD (jump_move 2 2 0 2) < 2^64)
    by (vm_compute; split; congruence).
  assert (H4 : 0 <= clearBits (jump_move 2 2 0 2) < 2^64) by (vm_compute; split; congruence).
  assert (H2 : Z.land (applyMove DEFAULT_BOARD (jump_move 2 2 0 2)) (setBit (jump_move 2 2 0 2)) =
               setBit (jump_move 2 2 0 2)) by (vm_compute; reflexivity).
  assert (H3 : Z.land (applyMove DEFAULT_BOARD (jump_move 2 2 0 2))
                      (clearBits (jump_move 2 2 0 2)) = 0) by (vm_compute; reflexivity).
  split; [exact H1|]. split; [exact H4|]. split; [exact H2|]. split; [exact H3|].
  exact (applyMove_undoMove _ _ H1 H4 H2 H3).
Defined.

Lemma testbit_one j : Z.testbit 1 j = (j =? 0).
Proof.
  destruct (Z.compare_spec j 0) as [->|Hj|Hj]; [reflexivity| |].
  - rewrite Z.testbit_neg_r by lia. symmetry. apply Z.eqb_neq. lia.
  - rewrite (small_bits 1 1 j) by (cbn; lia). symmetry. apply Z.eqb_neq. lia.
Qed.

Lemma shl64_one_bit k n : 0 <= k < 64 -> 0 <= n -> Z.testbit (shl64 1 k) n = (n =? k).
Proof.
  intros Hk Hn. rewrite shl64_bit, testbit_one.
  destruct (Z.leb_spec 0 n), (Z.ltb_spec n 64), (Z.eqb_spec (n - k) 0), (Z.eqb_spec n k);
    simpl; try reflexivity; lia.
Qed.

Lemma getBit_testbit b r c : 0 <= bitIndex r c -> (getBit b r c =? 1) = Z.testbit b (bitIndex r c).
Proof.
  intros Hk. unfold getBit.
  assert (E : Z.land (Z.shiftr b (bitIndex r c)) 1 = Z.b2z (Z.testbit b (bitIndex r c))).
  { apply Z.bits_inj'. intros n Hn. rewrite Z.land_spec, Z.shiftr_spec, testbit_one by lia.
    destruct (Z.eqb_spec n 0) as [->|Hn0].
    - rewrite andb_true_r, Z.add_0_l. destruct (Z.testbit b (bitIndex r c)); reflexivity.
    - rewrite andb_false_r. destruct (Z.testbit b (bitIndex r c)); simpl;
        [rewrite testbit_one; symmetry; apply Z.eqb_neq; lia | symmetry; apply Z.bits_0]. }
  rewrite E. destruct (Z.testbit b (bitIndex r c)); reflexivity.
Qed.

Lemma move_ok_bits b s k1 k2 :
  0 <= s < 64 -> 0 <= k1 < 64 -> 0 <= k2 < 64 ->
  move_ok b (mkMove (shl64 1 s) (Z.lor (shl64 1 k1) (shl64 1 k2))) =
    Z.testbit b k1 && Z.testbit b k2 && negb (Z.testbit b s).
Proof.
  intros Hs H1 H2. unfold move_ok; simpl.
  assert (C : (Z.land b (Z.lor (shl64 1 k1) (shl64 1 k2)) =? Z.lor (shl64 1 k1) (shl64 1 k2))
              = Z.testbit b k1 && Z.testbit b k2).
  { destruct (Z.eqb_spec (Z.land b (Z.lor (shl64 1 k1) (shl64 1 k2))) (Z.lor (shl64 1 k1) (shl64 1 k2)))
      as [E|E].
    - rewrite land_eq_bits in E.
      rewrite (E k1), (E k2); try lia; try reflexivity;
        rewrite Z.lor_spec, !shl64_one_bit, ?Z.eqb_refl, ?orb_true_r by lia; reflexivity.
    - symmetry. apply not_true_iff_false. intros T. apply andb_prop in T as [T1 T2].
      apply E, land_eq_bits. intros n Hn. rewrite Z.lor_spec, !shl64_one_bit by lia.
      destruct (Z.eqb_spec n k1) as [->|]; [intros; exact T1|].
      destruct (Z.eqb_spec n k2) as [->|]; [intros; exact T2|]. discriminate. }
  assert (S : (Z.land (lnot64 b) (shl64 1 s) =? shl64 1 s) = negb (Z.testbit b s)).
  { destruct (Z.eqb_spec (Z.land (lnot64 b) (shl64 1 s)) (shl64 1 s)) as [E|E].
    - rewrite land_eq_bits in E. specialize (E s ltac:(lia)).
      rewrite shl64_one_bit, Z.eqb_refl in E by lia. specialize (E eq_refl).
      unfold lnot64 in E. rewrite Z.lxor_spec, mask64_bit in E by lia.
      destruct (Z.ltb_spec s 64); try lia. destruct (Z.testbit b s); [discriminate|reflexivity].
    - destruct (Z.testbit b s) eqn:T; [reflexivity|exfalso].
      apply E, land_eq_bits. intros n Hn. rewrite shl64_one_bit by lia.
      destruct (Z.eqb_spec n s) as [->|]; [|discriminate]. intros _.
      unfold lnot64. rewrite Z.lxor_spec, mask64_bit by lia.
      destruct (Z.ltb_spec s 64); try lia. rewrite T. reflexivity. }
  rewrite C, S. reflexivity.
Qed.

Lemma isValidMove_table :
  forallb (fun q => let '(r, c, r', c') := q in
     let rowDif := Z.abs (r - r') in let colDif := Z.abs (c - c') in
     Bool.eqb (playable r c && playable r' c' &&
               (((rowDif =? 2) && (colDif =? 0)) || ((rowDif =? 0) && (colDif =? 2))))
              (geometric_jump r c r' c'))
    all_jumps = true.
Proof. vm_compute. reflexivity. Qed.

Lemma PLAYABLE_at_range r c : 0 <= r < 7 -> 0 <= c < 7 -> PLAYABLE_at r c = Some (playable r c).
Proof.
  intros Hr Hc. unfold playable.
  assert (H : forallb (fun q => let '(r, c, _, _) := q in
                match PLAYABLE_at r c with Some _ => true | None => false end) all_jumps = true)
    by (vm_compute; reflexivity).
  rewrite forallb_forall in H. specialize (H _ (in_all_jumps r c 0 0 Hr Hc ltac:(lia) ltac:(lia))).
  simpl in H. destruct (PLAYABLE_at r c); [reflexivity|discriminate].
Qed.

Lemma isValidMove_range_eq b r c r' c' :
  0 <= r < 7 -> 0 <= c < 7 -> 0 <= r' < 7 -> 0 <= c' < 7 ->
  isValidMove b r c r' c' = Some (geometric_jump r c r' c' && move_ok b (jump_move r c r' c')).
Proof.
  intros Hr Hc Hr' Hc'. unfold isValidMove.
  replace (int_abs_ok (r - r') && int_abs_ok (c - c')) with true
    by (unfold int_abs_ok; symmetry;
        repeat (apply andb_true_intro; split); apply Z.ltb_lt; lia).
  simpl negb. cbv iota.
  replace ((MAX_ROW <? r') || (r' <? 0) || (MAX_COL <? c') || (c' <? 0)) with false
    by (unfold MAX_ROW, MAX_COL, NUM_ROWS, NUM_COLS;
        destruct (Z.ltb_spec 6 r'), (Z.ltb_spec r' 0), (Z.ltb_spec 6 c'), (Z.ltb_spec c' 0);
        try lia; reflexivity).
  rewrite !PLAYABLE_at_range by assumption.
  pose proof isValidMove_table as T. rewrite forallb_forall in T.
  specialize (T _ (in_all_jumps r c r' c' Hr Hc Hr' Hc')). simpl in T.
  apply Bool.eqb_prop in T. rewrite <- T.
  assert (Hm : 0 <= Z.quot (r + r') 2 < 7 /\ 0 <= Z.quot (c + c') 2 < 7).
  { rewrite !Z.quot_div_nonneg by lia.
    split; split; (apply Z.div_pos; lia) || (apply Z.div_lt_upper_bound; lia). }
  unfold jump_move. rewrite move_ok_bits
    by (unfold bitIndex, ROW_IDX, MAX_BOARD_IDX, NUM_COLS; lia).
  rewrite !getBit_testbit by (unfold bitIndex, ROW_IDX, MAX_BOARD_IDX, NUM_COLS; lia).
  destruct (playable r c), (playable r' c'),
    (((Z.abs (r - r') =? 2) && (Z.abs (c - c') =? 0)) || ((Z.abs (r - r') =? 0) && (Z.abs (c - c') =? 2)));
    try reflexivity.
  destruct (Z.testbit b (bitIndex r c)), (Z.testbit b (bitIndex r' c')),
    (Z.testbit b (bitIndex (Z.quot (r + r') 2) (Z.quot (c + c') 2))); reflexivity.
Qed.

Lemma PLAYABLE_at_Some r c v : PLAYABLE_at r c = Some v -> 0 <= r < 7 /\ 0 <= c < 7.
Proof.
  unfold PLAYABLE_at. destruct (Z.leb_spec 0 r), (Z.leb_spec 0 c); simpl; try discriminate.
  destruct (nth_error PLAYABLE (Z.to_nat r)) as [row|] eqn:Er; [|discriminate].
  intros Ec.
  assert (Lr : (Z.to_nat r < length PLAYABLE)%nat) by (apply nth_error_Some; congruence).
  assert (Hl : Forall (fun row => length row = 7%nat) PLAYABLE) by (repeat constructor).
  rewrite List.Forall_forall in Hl. specialize (Hl row (nth_error_In _ _ Er)).
  assert (Lc : (Z.to_nat c < length row)%nat) by (apply nth_error_Some; congruence).
  simpl in Lr. rewrite Hl in Lc. lia.
Qed.

Lemma isValidMove_true_range b r c r' c' :
  isValidMove b r c r' c' = Some true -> 0 <= r < 7 /\ 0 <= c < 7 /\ 0 <= r' < 7 /\ 0 <= c' < 7.
Proof.
  unfold isValidMove. destruct (negb _); [discriminate|].
  destruct (_ || _); [discriminate|].
  destruct (PLAYABLE_at r c) as [[|]|] eqn:E1; try discriminate.
  destruct (PLAYABLE_at r' c') as [[|]|] eqn:E2; try discriminate.
  intros _. apply PLAYABLE_at_Some in E1, E2. tauto.
Qed.

Lemma In_validMoves_nil b m : In m (validMoves b []) <-> In m ALL_MOVES /\ move_ok b m = true.
Proof.
  unfold validMoves. rewrite app_nil_l, <- list_elem_of_In, list_elem_of_filter, list_elem_of_In.
  tauto.
Qed.

(** X17: Every move returned by getAMove (without throwing) is one of the moves that validMoves lists for the board. *)
Theorem getAMove_in_validMoves b r c r' c' m :
  getAMove b r c r' c' = Returned m -> In m (validMoves b []).
Proof.
  unfold getAMove. destruct (isValidMove b r c r' c') as [[|]|] eqn:V; try discriminate.
  intros H. injection H as <-.
  destruct (isValidMove_true_range _ _ _ _ _ V) as [Hr [Hc [Hr' Hc']]].
  rewrite isValidMove_range_eq in V by assumption. injection V as V.
  apply andb_prop in V as [G Ok].
  apply In_validMoves_nil. split; [|exact Ok].
  pose proof all_jumps_are_moves as T. rewrite forallb_forall in T.
  specialize (T _ (in_all_jumps r c r' c' Hr Hc Hr' Hc')). cbv beta iota in T.
  rewrite G in T. apply mem_move_In in T. exact T.
Qed.

Lemma getAMove_in_validMoves_witness :
  getAMove DEFAULT_BOARD 2 2 0 2 = Returned (jump_move 2 2 0 2) /\
  In (jump_move 2 2 0 2) (validMoves DEFAULT_BOARD []).
Proof.
  assert (H : getAMove DEFAULT_BOARD 2 2 0 2 = Returned (jump_move 2 2 0 2))
    by (vm_compute; reflexivity).
  split; [exact H|]. exact (getAMove_in_validMoves _ _ _ _ _ _ H).
Defined.

Lemma dfs_iter_inv B k st st' :
  playable_inv B = true -> dfs_inv B st -> dfs_iter k st = Some st' -> dfs_inv B st'.
Proof.
  intros HB. revert st. induction k as [|k IH]; intros st I H; simpl in H.
  - injection H as <-. exact I.
  - destruct (dfs_step st) eqn:E; try discriminate.
    exact (IH _ (dfs_inv_step B st _ HB I E) H).
Qed.

Lemma dfs_inv_not_stuck B st : dfs_inv B st -> dfs_step st <> Stuck.
Proof.
  intros I. pose proof (inv_frames _ _ I) as F.
  destruct st as [fs buf K]. cbn [dfs moves] in F.
  unfold dfs_step. cbn [dfs moves seen].
  destruct fs as [|top rest]; [discriminate|].
  destruct (Nat.leb_spec (moveEnd top) (moveIndex top)) as [Hle|Hlt]; [discriminate|].
  apply Forall_inv in F. pose proof (frame_end_le _ _ _ F) as Hend.
  destruct (nth_error buf (moveIndex top)) as [m|] eqn:Hm.
  - destruct (getCanonicalBits (applyMove (fr_board top) m)) as [c tr].
    unfold testAndSet. destruct (decide (boardToBits c ∈ K)); [discriminate|].
    destruct (hasWon (applyMove (fr_board top) m)); discriminate.
  - apply nth_error_None in Hm. lia.
Qed.

(** X18: From a start board within FULL_BOARD, every state reached by the loop of runDFS under solve has moves[top.moveIndex] in range whenever the loop reads it, so the loop never reads past the move buffer. *)
Theorem runDFS_never_stuck B k st :
  playable_inv B = true -> dfs_iter k (solve_init B) = Some st -> dfs_step st <> Stuck.
Proof.
  intros HB H. apply (dfs_inv_not_stuck B).
  exact (dfs_iter_inv B k _ _ HB (dfs_inv_init B HB) H).
Qed.

Lemma runDFS_never_stuck_witness :
  playable_inv DEFAULT_BOARD = true /\
  exists st, dfs_iter 20 (solve_init DEFAULT_BOARD) = Some st /\ dfs_step st <> Stuck.
Proof.
  assert (HB : playable_inv DEFAULT_BOARD = true) by (vm_compute; reflexivity).
  split; [exact HB|].
  destruct (dfs_iter 20 (solve_init DEFAULT_BOARD)) as [st|] eqn:E.
  - exists st. split; [reflexivity|]. exact (runDFS_never_stuck DEFAULT_BOARD 20 st HB E).
  - vm_compute in E. discriminate E.
Defined.

Lemma popcount64_nonneg x : 0 <= popcount64 x.
Proof.
  unfold popcount64. induction (seq 0 64) as [|n l IH]; simpl; [lia|].
  destruct (Z.testbit x (Z.of_nat n)); simpl; lia.
Qed.

Lemma sorted_length_bound (l : list StackFrame) lo hi :
  lo <= hi + 1 -> StronglySorted pc_lt l ->
  Forall (fun f => lo <= popcount64 (fr_board f) <= hi) l ->
  Z.of_nat (length l) <= hi - lo + 1.
Proof.
  revert lo. induction l as [|x l IH]; intros lo Hlo S F; simpl; [lia|].
  apply StronglySorted_inv in S as [S Sx].
  pose proof (Forall_inv F) as Fx. cbv beta in Fx. pose proof (Forall_inv_tail F) as Fl.
  assert (Fl' : Forall (fun f => popcount64 (fr_board x) + 1 <= popcount64 (fr_board f) <= hi) l).
  { rewrite List.Forall_forall in Fl, Sx |- *. intros f Hf.
    specialize (Fl f Hf). specialize (Sx f Hf). unfold pc_lt in Sx. lia. }
  specialize (IH (popcount64 (fr_board x) + 1) ltac:(lia) S Fl'). lia.
Qed.

Lemma sorted_last (l : list StackFrame) z :
  StronglySorted pc_lt (l ++ [z]) -> Forall (fun x => pc_lt x z) l.
Proof.
  induction l as [|x l IH]; intros S; [constructor|].
  simpl in S. apply StronglySorted_inv in S as [S Sx]. constructor.
  - rewrite List.Forall_forall in Sx. apply Sx. apply in_or_app. right. left. reflexivity.
  - exact (IH S).
Qed.

Lemma dfs_inv_depth B st :
  playable_inv B = true -> dfs_inv B st ->
  Z.of_nat (length (dfs st)) <= popcount64 B + 1.
Proof.
  intros HB I. pose proof (inv_sorted _ _ I) as S. pose proof (inv_root _ _ I) as [_ R].
  destruct (dfs st) as [|f fs] eqn:E; [simpl; pose proof (popcount64_nonneg B); lia|].
  destruct (exists_last (l := f :: fs) ltac:(discriminate)) as [fs' [root Hl]].
  rewrite Hl in S |- *. specialize (R fs' root Hl).
  destruct (canonical_facts B HB) as [_ [Hpc _]].
  assert (Hr : popcount64 (fr_board root) = popcount64 B) by (rewrite R; exact Hpc).
  pose proof (sorted_last _ _ S) as Hlt.
  pose proof (sorted_length_bound _ 0 (popcount64 B) ltac:(pose proof (popcount64_nonneg B); lia) S) as L.
  enough (Forall (fun f => 0 <= popcount64 (fr_board f) <= popcount64 B) (fs' ++ [root])) by
    (specialize (L H); lia).
  apply Forall_app. split.
  - eapply Forall_impl; [exact Hlt|]. intros x Hx. unfold pc_lt in Hx.
    pose proof (popcount64_nonneg (fr_board x)). lia.
  - constructor; [|constructor]. pose proof (popcount64_nonneg (fr_board root)). lia.
Qed.

(** X19: From a start board within FULL_BOARD, the DFS stack of every state reached by the loop of runDFS under solve holds at most popcount(start) + 1 frames. *)
Theorem runDFS_depth_bound B k st :
  playable_inv B = true -> dfs_iter k (solve_init B) = Some st ->
  Z.of_nat (length (dfs st)) <= popcount64 B + 1.
Proof.
  intros HB H. apply (dfs_inv_depth B st HB).
  exact (dfs_iter_inv B k _ _ HB (dfs_inv_init B HB) H).
Qed.

Lemma runDFS_depth_bound_witness :
  playable_inv DEFAULT_BOARD = true /\
  exists st, dfs_iter 20 (solve_init DEFAULT_BOARD) = Some st /\
    Z.of_nat (length (dfs st)) <= popcount64 DEFAULT_BOARD + 1.
Proof.
  assert (HB : playable_inv DEFAULT_BOARD = true) by (vm_compute; reflexivity).
  split; [exact HB|].
  destruct (dfs_iter 20 (solve_init DEFAULT_BOARD)) as [st|] eqn:E.
  - exists st. split; [reflexivity|]. exact (runDFS_depth_bound DEFAULT_BOARD 20 st HB E).
  - vm_compute in E. discriminate E.
Defined.

Lemma getRow_insertRow_witness :
  0 <= 3 < 7 /\ 0 <= 2 < 7 /\ 0 <= 200 < 256 /\
  getRow (insertRow DEFAULT_BOARD 3 200) 2 =
    (if 2 =? 3 then Z.land 200 0x7F
     else if 2 =? 3 - 1 then Z.lor (getRow DEFAULT_BOARD 2) (Z.shiftr 200 7)
     else getRow DEFAULT_BOARD 2).
Proof.
  split; [lia|]. split; [lia|]. split; [lia|].
  apply getRow_insertRow; lia.
Defined.

(** X16: For source and destination cells inside the 7x7 grid, msBoard::isValidMove is defined and returns true exactly when the three cells are playable, form a jump of two along one axis, and the move is legal on the board (source and middle occupied, destination empty). *)
Theorem isValidMove_in_range b r c r' c' :
  0 <= r < 7 -> 0 <= c < 7 -> 0 <= r' < 7 -> 0 <= c' < 7 ->
  isValidMove b r c r' c' = Some (geometric_jump r c r' c' && move_ok b (jump_move r c r' c')).
Proof. exact (isValidMove_range_eq b r c r' c'). Qed.

Lemma isValidMove_in_range_witness :
  0 <= 2 < 7 /\ 0 <= 2 < 7 /\ 0 <= 0 < 7 /\ 0 <= 2 < 7 /\
  isValidMove DEFAULT_BOARD 2 2 0 2 =
    Some (geometric_jump 2 2 0 2 && move_ok DEFAULT_BOARD (jump_move 2 2 0 2)).
Proof.
  split; [lia|]. split; [lia|]. split; [lia|]. split; [lia|].
  apply isValidMove_in_range; lia.
Defined.

Lemma to_int_range x : - 2^31 <= to_int x < 2^31.
Proof.
  unfold to_int. pose proof (Z.mod_pos_bound x (2^32) ltac:(lia)).
  destruct (Z.ltb_spec (x mod 2^32) (2^31)); lia.
Qed.

Lemma to_int_unsigned x : - 2^31 <= x < 2^31 -> to_int (to_unsigned x) = x.
Proof.
  intros H. unfold to_int, to_unsigned. rewrite Zmod_mod.
  destruct (Z.leb_spec 0 x).
  - rewrite Z.mod_small by lia. destruct (Z.ltb_spec x (2^31)); lia.
  - replace (x mod 2^32) with (x + 2^32).
    + destruct (Z.ltb_spec (x + 2^32) (2^31)); lia.
    + symmetry. rewrite <- (Z.mod_small (x + 2^32) (2^32)) by lia.
      rewrite Z.add_mod, Z.mod_same, Z.add_0_r, Zmod_mod by lia. reflexivity.
Qed.

Lemma to_int_small x : 0 <= x < 2^31 -> to_int x = x.
Proof.
  intros H. unfold to_int. rewrite Z.mod_small by lia.
  destruct (Z.ltb_spec x (2^31)); lia.
Qed.

Lemma game_dest_range mi pl x d : game_dest mi pl x = Some d -> - 2^31 <= d < 2^31.
Proof.
  unfold game_dest. destruct mi; [destruct (_ <? _); [discriminate|]|destruct pl];
    intros H; injection H as <-; apply to_int_range.
Qed.

Lemma cases7 r : 0 <= r < 7 -> r = 0 \/ r = 1 \/ r = 2 \/ r = 3 \/ r = 4 \/ r = 5 \/ r = 6.
Proof. lia. Qed.

Lemma game_dest_row r d : 0 <= r < 7 -> game_dest (is_up d) (is_down d) r = Some (r + drow d).
Proof.
  intros H. destruct (cases7 r H) as [->|[->|[->|[->|[->|[->| ->]]]]]];
    destruct d; vm_compute; reflexivity.
Qed.

Lemma game_dest_col c d : 0 <= c < 7 -> game_dest (is_left d) (is_right d) c = Some (c + dcol d).
Proof.
  intros H. destruct (cases7 c H) as [->|[->|[->|[->|[->|[->| ->]]]]]];
    destruct d; vm_compute; reflexivity.
Qed.

Lemma drow_range d : -2 <= drow d <= 2.
Proof. destruct d; simpl; lia. Qed.
Lemma dcol_range d : -2 <= dcol d <= 2.
Proof. destruct d; simpl; lia. Qed.

Lemma game_isValidMove_small g r c d :
  0 <= r < 7 -> 0 <= c < 7 ->
  game_isValidMove g r c d = isValidMove (board g) r c (r + drow d) (c + dcol d).
Proof.
  intros Hr Hc. unfold game_isValidMove.
  rewrite game_dest_row, game_dest_col by assumption.
  pose proof (drow_range d). pose proof (dcol_range d).
  rewrite !to_int_unsigned by lia. rewrite !to_int_small by lia. reflexivity.
Qed.

(** [isValidMove] at [Some true] picks a table move. *)
Lemma isValidMove_true_In b r c r' c' :
  isValidMove b r c r' c' = Some true -> In (jump_move r c r' c') (validMoves b []) /\
    geometric_jump r c r' c' = true /\ 0 <= r < 7 /\ 0 <= c < 7 /\ 0 <= r' < 7 /\ 0 <= c' < 7.
Proof.
  intros V.
  destruct (isValidMove_true_range _ _ _ _ _ V) as [Hr [Hc [Hr' Hc']]].
  rewrite isValidMove_range_eq in V by assumption. injection V as V.
  apply andb_prop in V as [G Ok].
  split; [|tauto].
  apply In_validMoves_nil. split; [|exact Ok].
  pose proof all_jumps_are_moves as T. rewrite forallb_forall in T.
  specialize (T _ (in_all_jumps r c r' c' Hr Hc Hr' Hc')). cbv beta iota in T.
  rewrite G in T. apply mem_move_In in T. exact T.
Qed.

Lemma getAMove_true b r c r' c' :
  isValidMove b r c r' c' = Some true -> getAMove b r c r' c' = Returned (jump_move r c r' c').
Proof. intros V. unfold getAMove. rewrite V. reflexivity. Qed.

(** The game's destination, once converted, is the one [makeMove] uses. *)
Lemma makeMove_inv g row col dir ok g' :
  makeMove g row col dir = Some (ok, g') ->
  (ok = false /\ g' = g) \/
  (ok = true /\ exists dr dc,
     game_dest (is_up dir) (is_down dir) row = Some dr /\
     game_dest (is_left dir) (is_right dir) col = Some dc /\
     isValidMove (board g) (to_int row) (to_int col) dr dc = Some true /\
     g' = mkGame (applyMove (board g) (jump_move (to_int row) (to_int col) dr dc))
                 (moveHistory g ++ [jump_move (to_int row) (to_int col) dr dc])).
Proof.
  unfold makeMove.
  destruct (game_isValidMove g row col dir) as [[|]|] eqn:V; try discriminate.
  - unfold game_isValidMove in V.
    destruct (game_dest (is_up dir) (is_down dir) row) as [dr|] eqn:Er; [|discriminate].
    destruct (game_dest (is_left dir) (is_right dir) col) as [dc|] eqn:Ec; [|discriminate].
    rewrite (to_int_unsigned dr), (to_int_unsigned dc) in V
      by (eapply game_dest_range; eassumption).
    rewrite (getAMove_true _ _ _ _ _ V).
    intros H. injection H as <- <-. right. split; [reflexivity|].
    exists dr, dc. auto.
  - intros H. injection H as <- <-. left. auto.
Qed.

Lemma undo_apply_move b m :
  0 <= b < 2^64 -> 0 <= setBit m < 2^64 -> move_ok b m = true ->
  undoMove (applyMove b m) m = b.
Proof.
  intros Hb Hs Ok. unfold move_ok in Ok. apply andb_prop in Ok as [Hc Hs'].
  apply Z.eqb_eq in Hc, Hs'.
  destruct m as [s c]. simpl in *.
  rewrite land_eq_bits in Hc, Hs'.
  unfold undoMove, applyMove, lnot64; simpl.
  apply Z.bits_inj'. intros n Hn.
  rewrite !Z.lor_spec, !Z.land_spec, !Z.lor_spec, !Z.lxor_spec, !mask64_bit by lia.
  specialize (Hc n Hn). specialize (Hs' n Hn).
  unfold lnot64 in Hs'. rewrite Z.lxor_spec, mask64_bit in Hs' by lia.
  destruct (Z.ltb_spec n 64).
  - destruct (Z.testbit b n), (Z.testbit s n), (Z.testbit c n); simpl in *;
      try reflexivity; try (specialize (Hc eq_refl); discriminate);
      specialize (Hs' eq_refl); discriminate.
  - rewrite (bound64_high b n Hb), (bound64_high s n Hs) in * by lia.
    destruct (Z.testbit c n); [specialize (Hc eq_refl); discriminate|reflexivity].
Qed.

Lemma shl64_range x k : 0 <= shl64 x k < 2^64.
Proof.
  unfold shl64, mask64. rewrite Z.land_ones by lia. apply Z.mod_pos_bound. lia.
Qed.

Lemma to_int_nonneg_small x : 0 <= x < 2^32 -> 0 <= to_int x < 7 -> to_int x = x.
Proof.
  intros H1 H2. unfold to_int in *. rewrite Z.mod_small in * by lia.
  destruct (Z.ltb_spec x (2^31)); lia.
Qed.

Lemma game_dest_row_gen r d : 0 <= r < 2^30 -> game_dest (is_up d) (is_down d) r = Some (r + drow d).
Proof.
  intros H. destruct d; unfold game_dest; simpl is_up; simpl is_down; cbv iota;
    rewrite ?(to_int_small r) by lia; simpl drow.
  - destruct (Z.ltb_spec (r - 2) (- 2^31)); [lia|].
    rewrite to_int_unsigned by lia. f_equal; lia.
  - rewrite to_int_unsigned by lia. reflexivity.
  - f_equal; lia.
  - f_equal; lia.
Qed.

Lemma game_dest_col_gen c d : 0 <= c < 2^30 -> game_dest (is_left d) (is_right d) c = Some (c + dcol d).
Proof.
  intros H. destruct d; unfold game_dest; simpl is_left; simpl is_right; cbv iota;
    rewrite ?(to_int_small c) by lia; simpl dcol.
  - f_equal; lia.
  - f_equal; lia.
  - destruct (Z.ltb_spec (c - 2) (- 2^31)); [lia|].
    rewrite to_int_unsigned by lia. f_equal; lia.
  - rewrite to_int_unsigned by lia. reflexivity.
Qed.

Lemma game_isValidMove_gen g r c d :
  0 <= r < 2^30 -> 0 <= c < 2^30 ->
  game_isValidMove g r c d = isValidMove (board g) r c (r + drow d) (c + dcol d).
Proof.
  intros Hr Hc. unfold game_isValidMove.
  rewrite game_dest_row_gen, game_dest_col_gen by assumption.
  pose proof (drow_range d). pose proof (dcol_range d).
  rewrite !to_int_unsigned by lia. rewrite !to_int_small by lia. reflexivity.
Qed.

Lemma PLAYABLE_at_None r c : 0 <= r -> 0 <= c -> 7 <= r \/ 7 <= c -> PLAYABLE_at r c = None.
Proof.
  intros Hr Hc H. unfold PLAYABLE_at.
  destruct (Z.leb_spec 0 r), (Z.leb_spec 0 c); try lia. simpl andb. cbv iota.
  destruct (nth_error PLAYABLE (Z.to_nat r)) as [row|] eqn:Er; [|reflexivity].
  apply nth_error_None.
  assert (Lr : (Z.to_nat r < length PLAYABLE)%nat) by (apply nth_error_Some; congruence).
  simpl in Lr.
  assert (Hl : Forall (fun row => length row = 7%nat) PLAYABLE) by (repeat constructor).
  rewrite List.Forall_forall in Hl. rewrite (Hl row (nth_error_In _ _ Er)). lia.
Qed.

Lemma geometric_dir r c r' c' :
  geometric_jump r c r' c' = true -> exists d, r' = r + drow d /\ c' = c + dcol d.
Proof.
  unfold geometric_jump. intros G.
  apply andb_prop in G as [_ G]. apply orb_prop in G as [G|G]; apply andb_prop in G as [G1 G2];
    apply Z.eqb_eq in G1, G2.
  - destruct (Z.leb_spec r r').
    + exists DOWN. simpl. lia.
    + exists UP. simpl. lia.
  - destruct (Z.leb_spec c c').
    + exists RIGHT. simpl. lia.
    + exists LEFT. simpl. lia.
Qed.

Lemma toString_table :
  forallb (fun q => let '(r, c, d) := q in
             negb (geometric_jump r c (r + drow d) (c + dcol d)) ||
             String.eqb (MoveText.Move_toString (jump_move r c (r + drow d) (c + dcol d)))
                        (MoveText.move_text r c d))
          (list_prod (list_prod zrange7 zrange7) all_dirs) = true.
Proof. vm_compute. reflexivity. Qed.

Lemma playable_inv_range b : playable_inv b = true -> 0 <= b < 2^64.
Proof.
  unfold playable_inv. intros H. apply Z.eqb_eq in H. rewrite <- H.
  replace FULL_BOARD with (Z.land FULL_BOARD (Z.ones 64)) by (vm_compute; reflexivity).
  rewrite Z.land_assoc, Z.land_ones by lia. apply Z.mod_pos_bound. lia.
Qed.



(** X20: For a game whose board is within FULL_BOARD, a defined call of msGame::makeMove either returns false and leaves the game unchanged, or returns true after playing one move m listed by validMoves. In the true case the board becomes applyMove(board, m), m is appended to moveHistory, the board stays within FULL_BOARD and it has one marble fewer. *)
Theorem makeMove_sound g row col dir ok g' :
  playable_inv (board g) = true -> makeMove g row col dir = Some (ok, g') ->
  (ok = false /\ g' = g) \/
  (ok = true /\ exists m, In m (validMoves (board g) []) /\
     g' = mkGame (applyMove (board g) m) (moveHistory g ++ [m]) /\
     playable_inv (board g') = true /\ popcount64 (board g') = popcount64 (board g) - 1).
Proof.
  intros Hb H. destruct (makeMove_inv _ _ _ _ _ _ H) as [L|[-> [dr [dc [_ [_ [V ->]]]]]]];
    [left; exact L|right].
  split; [reflexivity|].
  destruct (isValidMove_true_In _ _ _ _ _ V) as [Hin _].
  exists (jump_move (to_int row) (to_int col) dr dc). split; [exact Hin|]. split; [reflexivity|].
  apply In_validMoves_nil in Hin as [Hm Ok]. simpl board.
  split; [apply playable_inv_applyMove; assumption|].
  apply popcount64_move; assumption.
Qed.

Lemma makeMove_sound_witness :
  playable_inv (board (mkGame DEFAULT_BOARD [])) = true /\
  exists g', makeMove (mkGame DEFAULT_BOARD []) 0 4 LEFT = Some (true, g') /\
  ((true = false /\ g' = mkGame DEFAULT_BOARD []) \/
   (true = true /\ exists m, In m (validMoves (board (mkGame DEFAULT_BOARD [])) []) /\
     g' = mkGame (applyMove (board (mkGame DEFAULT_BOARD [])) m)
                 (moveHistory (mkGame DEFAULT_BOARD []) ++ [m]) /\
     playable_inv (board g') = true /\
     popcount64 (board g') = popcount64 (board (mkGame DEFAULT_BOARD [])) - 1)).
Proof.
  assert (HB : playable_inv (board (mkGame DEFAULT_BOARD [])) = true) by (vm_compute; reflexivity).
  split; [exact HB|].
  destruct (makeMove (mkGame DEFAULT_BOARD []) 0 4 LEFT) as [[[|] g']|] eqn:E.
  - exists g'. split; [reflexivity|]. exact (makeMove_sound _ _ _ _ _ _ HB E).
  - vm_compute in E. discriminate E.
  - vm_compute in E. discriminate E.
Defined.

(** X21: Whenever msGame::isValidMove(row, col, dir) returns true, msGame::makeMove(row, col, dir) returns true: the getAMove call in makeMove never throws. *)
Theorem makeMove_complete g row col dir :
  game_isValidMove g row col dir = Some true -> exists g', makeMove g row col dir = Some (true, g').
Proof.
  intros V. unfold makeMove. rewrite V.
  unfold game_isValidMove in V.
  destruct (game_dest (is_up dir) (is_down dir) row) as [dr|] eqn:Er; [|discriminate].
  destruct (game_dest (is_left dir) (is_right dir) col) as [dc|] eqn:Ec; [|discriminate].
  rewrite (to_int_unsigned dr), (to_int_unsigned dc) in V
    by (eapply game_dest_range; eassumption).
  rewrite (getAMove_true _ _ _ _ _ V). eexists. reflexivity.
Qed.

Lemma makeMove_complete_witness :
  game_isValidMove (mkGame DEFAULT_BOARD []) 0 4 LEFT = Some true /\
  exists g', makeMove (mkGame DEFAULT_BOARD []) 0 4 LEFT = Some (true, g').
Proof.
  assert (V : game_isValidMove (mkGame DEFAULT_BOARD []) 0 4 LEFT = Some true)
    by (vm_compute; reflexivity).
  split; [exact V|]. exact (makeMove_complete _ _ _ _ V).
Defined.

(** X22: For a game whose board is within FULL_BOARD, if msGame::makeMove returns true, then a following msGame::undoMove returns true and restores the board and the move history of the game before the move. *)
Theorem makeMove_undoMove g row col dir g' :
  playable_inv (board g) = true -> makeMove g row col dir = Some (true, g') ->
  game_undoMove g' = (true, g).
Proof.
  intros Hb H. destruct (makeMove_inv _ _ _ _ _ _ H) as [[D _]|[_ [dr [dc [_ [_ [V ->]]]]]]];
    [discriminate|].
  destruct (isValidMove_true_In _ _ _ _ _ V) as [Hin _].
  apply In_validMoves_nil in Hin as [_ Ok].
  unfold game_undoMove. cbn [moveHistory board]. rewrite rev_app_distr. cbn [rev app].
  rewrite removelast_last.
  rewrite undo_apply_move; [destruct g; reflexivity| |apply shl64_range|exact Ok].
  apply playable_inv_range. exact Hb.
Qed.

Lemma makeMove_undoMove_witness :
  playable_inv (board (mkGame DEFAULT_BOARD [])) = true /\
  exists g', makeMove (mkGame DEFAULT_BOARD []) 0 4 LEFT = Some (true, g') /\
    game_undoMove g' = (true, mkGame DEFAULT_BOARD []).
Proof.
  assert (HB : playable_inv (board (mkGame DEFAULT_BOARD [])) = true) by (vm_compute; reflexivity).
  split; [exact HB|].
  destruct (makeMove (mkGame DEFAULT_BOARD []) 0 4 LEFT) as [[[|] g']|] eqn:E.
  - exists g'. split; [reflexivity|]. exact (makeMove_undoMove _ _ _ _ _ HB E).
  - vm_compute in E. discriminate E.
  - vm_compute in E. discriminate E.
Defined.

(** X23: msGame::hasMoves returns true exactly when some row, column and direction make msGame::isValidMove return true. *)
Theorem hasMoves_iff g :
  hasMoves g = true <-> exists row col dir, game_isValidMove g row col dir = Some true.
Proof.
  split.
  - unfold hasMoves. destruct (validMoves (board g) []) as [|m rest] eqn:E; [discriminate|].
    intros _. assert (Hin : In m (validMoves (board g) [])) by (rewrite E; left; reflexivity).
    apply In_validMoves_nil in Hin as [Hm Ok].
    pose proof all_moves_are_jumps as A. rewrite forallb_forall in A.
    specialize (A m Hm). apply existsb_exists in A as [[[[r c] r'] c'] [Hq Hj]].
    apply andb_prop in Hj as [G Hj]. apply bool_decide_eq_true in Hj. subst m.
    destruct (all_jumps_range _ _ _ _ Hq) as [Hr [Hc [Hr' Hc']]].
    destruct (geometric_dir _ _ _ _ G) as [d [-> ->]].
    exists r, c, d. rewrite game_isValidMove_small by assumption.
    rewrite isValidMove_range_eq by assumption. rewrite G, Ok. reflexivity.
  - intros [row [col [dir V]]]. unfold game_isValidMove in V.
    destruct (game_dest (is_up dir) (is_down dir) row) as [dr|] eqn:Er; [|discriminate].
    destruct (game_dest (is_left dir) (is_right dir) col) as [dc|] eqn:Ec; [|discriminate].
    destruct (isValidMove_true_In _ _ _ _ _ V) as [Hin _].
    unfold hasMoves. destruct (validMoves (board g) []); [destruct Hin|reflexivity].
Qed.

(** X24: For row and col below 2^30, msGame::isValidMove is undefined exactly when the source cell lies outside the 7x7 grid (row >= 7 or col >= 7) while the destination lies inside it. In that case msBoard::isValidMove reads PLAYABLE[row][col] out of bounds; in every other case it returns a bool. *)
Theorem game_isValidMove_undefined g row col dir :
  0 <= row < 2^30 -> 0 <= col < 2^30 ->
  (game_isValidMove g row col dir = None <->
   (7 <= row \/ 7 <= col) /\ 0 <= row + drow dir < 7 /\ 0 <= col + dcol dir < 7).
Proof.
  intros Hr Hc. rewrite game_isValidMove_gen by assumption.
  pose proof (drow_range dir). pose proof (dcol_range dir).
  unfold isValidMove.
  replace (int_abs_ok (row - (row + drow dir)) && int_abs_ok (col - (col + dcol dir))) with true
    by (unfold int_abs_ok; symmetry;
        repeat (apply andb_true_intro; split); apply Z.ltb_lt; lia).
  simpl negb. cbv iota. unfold MAX_ROW, MAX_COL, NUM_ROWS, NUM_COLS.
  destruct (Z.ltb_spec (7 - 1) (row + drow dir)), (Z.ltb_spec (row + drow dir) 0),
    (Z.ltb_spec (7 - 1) (col + dcol dir)), (Z.ltb_spec (col + dcol dir) 0);
    simpl orb; cbv iota; try (split; [discriminate|lia]).
  destruct (Z.ltb_spec row 7), (Z.ltb_spec col 7).
  - rewrite (PLAYABLE_at_range row col), (PLAYABLE_at_range (row + drow dir) (col + dcol dir)) by lia.
    split; [|lia]. intros E.
    destruct (playable row col); [|discriminate].
    destruct (playable (row + drow dir) (col + dcol dir)); [|discriminate].
    destruct (negb _); [discriminate|]. destruct (_ || _); discriminate.
  - rewrite PLAYABLE_at_None by lia. split; [lia|reflexivity].
  - rewrite PLAYABLE_at_None by lia. split; [lia|reflexivity].
  - rewrite PLAYABLE_at_None by lia. split; [lia|reflexivity].
Qed.

Lemma game_isValidMove_undefined_witness :
  0 <= 8 < 2^30 /\ 0 <= 3 < 2^30 /\
  (game_isValidMove (mkGame DEFAULT_BOARD []) 8 3 UP = None <->
   (7 <= 8 \/ 7 <= 3) /\ 0 <= 8 + drow UP < 7 /\ 0 <= 3 + dcol UP < 7).
Proof.
  split; [lia|]. split; [lia|].
  apply game_isValidMove_undefined; lia.
Defined.

(** X25: If msGame::makeMove(row, col, dir) returns true, the move it appends to moveHistory prints through Move::toString as the text row col dir of the command: decimal row and column and one of up, down, left or right. *)
Theorem makeMove_toString g row col dir g' :
  0 <= row < 2^32 -> 0 <= col < 2^32 -> makeMove g row col dir = Some (true, g') ->
  exists m, moveHistory g' = moveHistory g ++ [m] /\
    MoveText.Move_toString m = MoveText.move_text row col dir.
Proof.
  intros Hrow Hcol H.
  destruct (makeMove_inv _ _ _ _ _ _ H) as [[D _]|[_ [dr [dc [Er [Ec [V ->]]]]]]];
    [discriminate|].
  destruct (isValidMove_true_In _ _ _ _ _ V) as [_ [G [Hr [Hc [Hr' Hc']]]]].
  assert (E1 : to_int row = row) by (apply to_int_nonneg_small; assumption).
  assert (E2 : to_int col = col) by (apply to_int_nonneg_small; assumption).
  rewrite E1, E2 in G. rewrite E1 in Hr. rewrite E2 in Hc. rewrite E1, E2.
  rewrite game_dest_row in Er by assumption. rewrite game_dest_col in Ec by assumption.
  injection Er as <-. injection Ec as <-.
  exists (jump_move row col (row + drow dir) (col + dcol dir)). split; [reflexivity|].
  pose proof toString_table as T. rewrite forallb_forall in T.
  assert (Hq : In (row, col, dir) (list_prod (list_prod zrange7 zrange7) all_dirs)).
  { apply in_prod; [apply in_prod; apply in_zrange7; assumption|].
    destruct dir; simpl; tauto. }
  specialize (T _ Hq). cbv beta iota in T. rewrite G in T. cbn [negb orb] in T.
  apply String.eqb_eq in T. exact T.
Qed.

Lemma makeMove_toString_witness :
  0 <= 0 < 2^32 /\ 0 <= 4 < 2^32 /\
  exists g', makeMove (mkGame DEFAULT_BOARD []) 0 4 LEFT = Some (true, g') /\
  exists m, moveHistory g' = moveHistory (mkGame DEFAULT_BOARD []) ++ [m] /\
    MoveText.Move_toString m = MoveText.move_text 0 4 LEFT.
Proof.
  split; [lia|]. split; [lia|].
  destruct (makeMove (mkGame DEFAULT_BOARD []) 0 4 LEFT) as [[[|] g']|] eqn:E.
  - exists g'. split; [reflexivity|]. exact (makeMove_toString (mkGame DEFAULT_BOARD []) 0 4 LEFT g' ltac:(lia) ltac:(lia) E).
  - vm_compute in E. discriminate E.
  - vm_compute in E. discriminate E.
Defined.

(** X26: For every row and col, the board set up by msGame::useCustomBoard (through the msBoard(row, col) constructor) has a legal move, so msGame::hasMoves returns true on it. *)
Theorem useCustomBoard_hasMoves g row col : hasMoves (useCustomBoard g row col) = true.
Proof.
  unfold useCustomBoard, hasMoves, msBoard_rc. simpl board.
  remember (Z.of_N row) as r. remember (Z.of_N col) as c.
  assert (0 <= r) by lia. assert (0 <= c) by lia.
  destruct ((MAX_ROW <? r) || (MAX_COL <? c) || negb (playable r c)) eqn:E;
    [vm_compute; reflexivity|].
  unfold MAX_ROW, MAX_COL, NUM_ROWS, NUM_COLS in E.
  destruct (Z.ltb_spec (7 - 1) r); [discriminate|].
  destruct (Z.ltb_spec (7 - 1) c); [discriminate|].
  destruct (cases7 r ltac:(lia)) as [->|[->|[->|[->|[->|[->| ->]]]]]];
  destruct (cases7 c ltac:(lia)) as [->|[->|[->|[->|[->|[->| ->]]]]]];
    first [vm_compute; reflexivity | vm_compute in E; discriminate E].
Qed.

(** X27: For every cell (r, c) of the 7x7 grid, bit 6-c of getRow(b, r) and bit 6-r of getCol(b, c) both equal getBit(b, r, c). *)
Theorem getRow_getCol_getBit b r c :
  0 <= r < 7 -> 0 <= c < 7 ->
  Z.testbit (getRow b r) (6 - c) = (getBit b r c =? 1) /\
  Z.testbit (getCol b c) (6 - r) = (getBit b r c =? 1).
Proof.
  intros Hr Hc.
  rewrite getBit_testbit by (unfold bitIndex, ROW_IDX, MAX_BOARD_IDX, NUM_COLS; lia).
  rewrite getRow_bit, getCol_bit.
  destruct (Z.leb_spec 0 (6 - c)), (Z.ltb_spec (6 - c) 7), (Z.leb_spec 0 (6 - r)),
    (Z.ltb_spec (6 - r) 7); try lia. cbn [andb].
  unfold bitIndex, rowShift, ROW_IDX, MAX_BOARD_IDX, NUM_COLS.
  split; f_equal; lia.
Qed.

Lemma getRow_getCol_getBit_witness :
  0 <= 3 < 7 /\ 0 <= 5 < 7 /\
  Z.testbit (getRow DEFAULT_BOARD 3) (6 - 5) = (getBit DEFAULT_BOARD 3 5 =? 1) /\
  Z.testbit (getCol DEFAULT_BOARD 5) (6 - 3) = (getBit DEFAULT_BOARD 3 5 =? 1).
Proof.
  split; [lia|]. split; [lia|]. apply getRow_getCol_getBit; lia.
Defined.

(* ------------------------------------------------------------------ *)
(** ** Termination of the search and C2 *)

Lemma boardToBits_lt b : 0 <= boardToBits b < 2^37.
Proof.
  assert (E : boardToBits b = Z.land (boardToBits b) (Z.ones 37)).
  { apply Z.bits_inj'. intros n Hn0. rewrite Z.land_spec, Z.testbit_ones by lia.
    destruct (Z.ltb_spec n 37); [destruct (Z.leb_spec 0 n); try lia; rewrite !andb_true_r; reflexivity|].
    rewrite andb_false_r.
    unfold boardToBits, EMPTY_BOARD.
    rewrite !Z.lor_spec, !shl64_bit, !Z.land_spec, Z.bits_0.
    rewrite (small_bits 7 3 n), (small_bits 0x1F 5 (n - 3)), (small_bits 0x1FFFFF 21 (n - 8)),
            (small_bits 0x1F 5 (n - 29)), (small_bits 0x7 3 (n - 34)) by (cbn; lia).
    rewrite !andb_false_r. reflexivity. }
  rewrite E, Z.land_ones by lia. apply Z.mod_pos_bound. lia.
Qed.

Lemma seen_bound B st : dfs_inv B st -> (size (seen st) <= key_space)%nat.
Proof.
  intros I. pose proof (inv_seen _ _ I) as S.
  set (L := map Z.of_nat (seq 0 key_space)).
  assert (Sub : seen st ⊆ (list_to_set L : gset Z)).
  { intros k Hk. destruct (S k Hk) as [d [_ [Hd _]]].
    pose proof (boardToBits_lt d) as R. rewrite Hd in R.
    apply elem_of_list_to_set, list_elem_of_In, in_map_iff.
    exists (Z.to_nat k). split; [lia|]. apply in_seq. rewrite Nat.add_0_l.
    split; [apply Nat.le_0_l|]. unfold key_space.
    apply (proj1 (Z2Nat.inj_lt k (2^37) ltac:(lia) ltac:(lia))). lia. }
  transitivity (size (list_to_set L : gset Z)); [apply subseteq_size, Sub|].
  rewrite size_list_to_set.
  - unfold L. rewrite length_map, length_seq. apply Nat.le_refl.
  - unfold L. apply NoDup_ListNoDup, Stdlib.Lists.Finite.Injective_map_NoDup; [intros x y Hxy; lia|apply seq_NoDup].
Qed.

Lemma step_measure st st' :
  dfs_step st = Continue st' ->
  (seen st' = seen st /\ (pot st' < pot st)%nat) \/ (size (seen st) < size (seen st'))%nat.
Proof.
  destruct st as [fs buf K]. unfold dfs_step, pot. cbn [dfs moves seen].
  destruct fs as [|top rest]; [discriminate|].
  destruct (Nat.leb_spec (moveEnd top) (moveIndex top)) as [Hle|Hlt].
  - intros H. injection H as <-. left. cbn. split; [reflexivity|lia].
  - destruct (nth_error buf (moveIndex top)) as [m|]; [|discriminate].
    destruct (getCanonicalBits (applyMove (fr_board top) m)) as [c tr].
    unfold testAndSet. destruct (decide (boardToBits c ∈ K)) as [Hk|Hk].
    + intros H. injection H as <-. left. cbn. split; [reflexivity|lia].
    + destruct (hasWon (applyMove (fr_board top) m)); [discriminate|].
      intros H. injection H as <-. right. cbn [seen].
      rewrite size_union by set_solver. rewrite size_singleton. lia.
Qed.

Lemma dfs_terminates B st :
  playable_inv B = true -> dfs_inv B st -> exists fuel res, runDFS fuel st = Some res.
Proof.
  intros HB.
  assert (Main : forall n p st, dfs_inv B st -> (key_space - size (seen st))%nat = n ->
                   pot st = p -> exists fuel res, runDFS fuel st = Some res).
  { intros n. induction n as [n IHn] using (well_founded_induction lt_wf).
    intros p. induction p as [p IHp] using (well_founded_induction lt_wf).
    intros s I Hn Hp.
    destruct (dfs_step s) as [s'|sol|] eqn:Hs.
    - pose proof (dfs_inv_step B s s' HB I Hs) as I'.
      pose proof (seen_bound B s' I') as Bd.
      destruct (step_measure s s' Hs) as [[Eq Lt]|Lt].
      + destruct (IHp (pot s') ltac:(lia) s' I' ltac:(rewrite Eq; exact Hn) eq_refl)
          as [fuel [res R]].
        exists (S fuel), res. cbn [runDFS]. rewrite Hs. exact R.
      + destruct (IHn (key_space - size (seen s'))%nat ltac:(lia) (pot s') s' I' eq_refl eq_refl)
          as [fuel [res R]].
        exists (S fuel), res. cbn [runDFS]. rewrite Hs. exact R.
    - exists 1%nat, sol. cbn [runDFS]. rewrite Hs. reflexivity.
    - exfalso. exact (dfs_inv_not_stuck B s I Hs). }
  intros I. exact (Main _ _ st I eq_refl eq_refl).
Qed.

(** C2 (amended): for a board [B] satisfying the playable invariant, [solve]
    terminates with a result, and every result it returns is empty exactly
    when no non-empty sequence of table moves, each legal when played, leaves
    one marble. *)
Theorem C2_solve_empty_iff_unsolvable B :
  playable_inv B = true ->
  (exists fuel res, solve fuel B = Some res) /\
  (forall fuel res, solve fuel B = Some res -> (res = [] <-> ~ reaches_won B)).
Proof.
  intros HB. split.
  - exact (dfs_terminates B (solve_init B) HB (dfs_inv_init B HB)).
  - intros fuel res Hs. exact (runDFS_correct B fuel _ res HB (dfs_inv_init B HB) Hs).
Qed.

(** C2 counterexample: on a board with one marble, [solve] returns the empty
    sequence although the board is already won by the empty sequence. *)
Lemma C2_counterexample :
  solve 2 board_c2 = Some [] /\ plays_to_win board_c2 [] = true /\ hasWon board_c2 = true.
Proof. vm_compute. repeat split. Qed.

Lemma C2_solve_empty_iff_unsolvable_witness :
  playable_inv board_c1 = true /\ solve 2 board_c1 = Some [jump_move 3 0 3 2] /\
  ((exists fuel res, solve fuel board_c1 = Some res) /\
   (forall fuel res, solve fuel board_c1 = Some res -> (res = [] <-> ~ reaches_won board_c1))).
Proof.
  assert (H : playable_inv board_c1 = true) by (vm_compute; reflexivity).
  split; [exact H|]. split; [vm_compute; reflexivity|].
  exact (C2_solve_empty_iff_unsolvable board_c1 H).
Defined.
